(** * Sports-betting arbitrage: the engine of [sba.go]

    A shallow embedding of the arithmetic core of [sba.go]
    ([roundToTwoDecimal], [calculateArbitragePercentage], [calculateStakes],
    [findBestOdds], [findArbitrageOpportunities]) and the properties its
    specification states about it, followed, over an interface of the
    library calls they make, by [writeBookmakersToFile],
    [readBookmakersFromFile] and [main].

    The Go program computes on [float64].  The functions are written once,
    over an interface [Float64] of the operations the source uses, and the
    interface is given two instances:

    - [Exact.ops]: the rationals [Q], the "exact arithmetic" the
      specification reasons in.  Equality of numbers is [==] ([Qeq]).
      [Qdiv x 0] is [0] by Rocq's convention, whereas no exact value exists;
      statements about quotients therefore say which divisors are nonzero.
    - [B64.ops]: IEEE 754 binary64 as specified by [SpecFloat] (53 bits of
      precision, [emax = 1024], round to nearest even), which is what Go's
      [float64] computes, infinities, NaN and signed zeros included. *)

From Stdlib Require Import ZArith QArith Qround Qabs Qminmax Lia.
From Stdlib Require Import Floats.
From stdpp Require Import gmap strings list fin_maps.

Set Default Proof Using "Type".
Local Open Scope Z_scope.

(** ** The arithmetic of [float64], as the source uses it *)

(** Go's [int] on the 64-bit targets. *)
Definition int_min : Z := - 2 ^ 63.
Definition int_max : Z := 2 ^ 63 - 1.
Definition in_int_range (z : Z) : bool := (int_min <=? z) && (z <=? int_max).

Class Float64 (F : Type) : Type := {
  f_add : F -> F -> F;          (* x + y *)
  f_sub : F -> F -> F;          (* x - y *)
  f_mul : F -> F -> F;          (* x * y *)
  f_div : F -> F -> F;          (* x / y, never panics on float64 *)
  f_ltb : F -> F -> bool;       (* x < y *)
  f_of_int : Z -> F;            (* float64(n), also the constants 1, 100 *)
  f_to_int : F -> option Z      (* int(x): truncation toward zero; [None]
                                   where Go leaves the result unspecified
                                   (out of the range of int, NaN) *)
}.

Declare Scope f64_scope.
Delimit Scope f64_scope with F.
Notation "x + y" := (f_add x y) : f64_scope.
Notation "x - y" := (f_sub x y) : f64_scope.
Notation "x * y" := (f_mul x y) : f64_scope.
Notation "x / y" := (f_div x y) : f64_scope.
Notation "x <? y" := (f_ltb x y) : f64_scope.
Notation "x >? y" := (f_ltb y x) : f64_scope.
Notation "'f1'" := (f_of_int 1) : f64_scope.
Notation "'f100'" := (f_of_int 100) : f64_scope.

(** ** The program *)

Section Program.
Context {F : Type} `{Float64 F}.
Local Open Scope f64_scope.

(** [type Odds struct { Win, Draw, Lose float64 }] *)
Record Odds : Type := mkOdds { Win : F; Draw : F; Lose : F }.

(** [type Game struct]; the field [Odds] is [GameOdds] here, the name
    [Odds] being taken by the type. *)
Record Game : Type := mkGame {
  ID : string;
  TeamA : string;
  TeamB : string;
  GameOdds : Odds;
  EventAt : string
}.

(** [type Bookmaker struct] *)
Record Bookmaker : Type := mkBookmaker {
  Name : string;
  Games : list Game
}.

(** [float64(int(val*100)) / 100] *)
Definition roundToTwoDecimal (val : F) : option F :=
  match f_to_int (val * f100) with
  | Some n => Some (f_of_int n / f100)
  | None => None
  end.

(** [(1 / odds.Win) + (1 / odds.Draw) + (1 / odds.Lose)] *)
Definition calculateArbitragePercentage (odds : Odds) : F :=
  (f1 / Win odds) + (f1 / Draw odds) + (f1 / Lose odds).

Definition calculateStakes (odds : Odds) (totalBet : F) : F * F * F :=
  let arbitragePercentage := calculateArbitragePercentage odds in
  let winStake := (totalBet / arbitragePercentage) / Win odds in
  let drawStake := (totalBet / arbitragePercentage) / Draw odds in
  let loseStake := (totalBet / arbitragePercentage) / Lose odds in
  (winStake, drawStake, loseStake).

(** The zero value of [Odds], what [bestOdds[game.ID]] yields for an
    absent key. *)
Definition zeroOdds : Odds :=
  {| Win := f_of_int 0; Draw := f_of_int 0; Lose := f_of_int 0 |}.

(** [currentBest, exists := bestOdds[game.ID]] *)
Definition lookupBest (bestOdds : gmap string Odds) (id : string)
  : Odds * bool :=
  match bestOdds !! id with
  | Some o => (o, true)
  | None => (zeroOdds, false)
  end.

(** The body of the inner loop of [findBestOdds]: three guarded field
    assignments to [currentBest], then the store. *)
Definition keepBest (bestOdds : gmap string Odds) (game : Game)
  : gmap string Odds :=
  let '(currentBest, exists_) := lookupBest bestOdds (ID game) in
  let currentBest :=
    if negb exists_ || (Win (GameOdds game) >? Win currentBest)
    then {| Win := Win (GameOdds game);
            Draw := Draw currentBest; Lose := Lose currentBest |}
    else currentBest in
  let currentBest :=
    if negb exists_ || (Draw (GameOdds game) >? Draw currentBest)
    then {| Win := Win currentBest;
            Draw := Draw (GameOdds game); Lose := Lose currentBest |}
    else currentBest in
  let currentBest :=
    if negb exists_ || (Lose (GameOdds game) >? Lose currentBest)
    then {| Win := Win currentBest;
            Draw := Draw currentBest; Lose := Lose (GameOdds game) |}
    else currentBest in
  <[ID game := currentBest]> bestOdds.

Definition findBestOdds (bookmakers : list Bookmaker) : gmap string Odds :=
  foldl (fun bestOdds bookmaker => foldl keepBest bestOdds (Games bookmaker))
        ∅ bookmakers.

(** What [findArbitrageOpportunities] prints for one event: the game id,
    the odds, the three stakes and the guaranteed profit.  The numbers are
    kept as they are before [%.2f] formats them. *)
Record Opportunity : Type := mkOpportunity {
  oppGameID : string;
  oppOdds : Odds;
  oppWinStake : F;
  oppDrawStake : F;
  oppLoseStake : F;
  oppGuaranteedProfit : F
}.

(** The body of the loop of [findArbitrageOpportunities] for one entry of
    the map: [None] when the [if] is not taken. *)
Definition reportOpportunity (entry : string * Odds) : option Opportunity :=
  let '(gameID, odds) := entry in
  let arbitragePercentage := calculateArbitragePercentage odds in
  if arbitragePercentage <? f1 then
    let totalBet := f100 in
    let '(winStake, drawStake, loseStake) := calculateStakes odds totalBet in
    let totalStake := winStake + drawStake + loseStake in
    let guaranteedProfit := (totalBet / arbitragePercentage) - totalStake in
    Some {| oppGameID := gameID; oppOdds := odds;
            oppWinStake := winStake; oppDrawStake := drawStake;
            oppLoseStake := loseStake;
            oppGuaranteedProfit := guaranteedProfit |}
  else None.

(** The blocks printed, in the order the map is traversed.  Go leaves that
    order unspecified; [map_to_list] fixes one, and no statement below
    depends on it. *)
Definition findArbitrageOpportunities (bookmakers : list Bookmaker)
  : list Opportunity :=
  omap reportOpportunity (map_to_list (findBestOdds bookmakers)).

(** All (bookmaker, game) quotes, in the order the two loops visit them. *)
Definition quotes (bookmakers : list Bookmaker) : list Game :=
  concat (map Games bookmakers).

(** The three outcomes, and the price or stake of each. *)
Inductive outcome : Type := OWin | ODraw | OLose.

Definition price (o : outcome) (odds : Odds) : F :=
  match o with OWin => Win odds | ODraw => Draw odds | OLose => Lose odds end.

Definition stake (o : outcome) (stakes : F * F * F) : F :=
  match o, stakes with
  | OWin, (w, _, _) => w
  | ODraw, (_, d, _) => d
  | OLose, (_, _, l) => l
  end.

(** [winStake + drawStake + loseStake] *)
Definition totalStake (stakes : F * F * F) : F :=
  let '(w, d, l) := stakes in w + d + l.

(** The larger of the stored value and a new quote, as the guarded
    assignments of [findBestOdds] decide it (the stored value on a tie),
    and the three fields merged that way. *)
Definition larger (stored new : F) : F :=
  if new >? stored then new else stored.

Definition mergeOdds (stored new : Odds) : Odds :=
  {| Win := larger (Win stored) (Win new);
     Draw := larger (Draw stored) (Draw new);
     Lose := larger (Lose stored) (Lose new) |}.

(** [v] is the largest price of outcome [o] among the quotes [qs] for the
    event [id]: some quote has it and none exceeds it. *)
Definition largest_quote (qs : list Game) (id : string) (o : outcome)
    (v : F) : Prop :=
  (exists g, g ∈ qs /\ ID g = id /\ price o (GameOdds g) = v) /\
  (forall g, g ∈ qs -> ID g = id -> (price o (GameOdds g) >? v) = false).

(** The payout if outcome [o] occurs. *)
Definition payout (o : outcome) (odds : Odds) (totalBet : F) : F :=
  stake o (calculateStakes odds totalBet) * price o odds.

End Program.

Arguments Odds F : clear implicits.
Arguments Game F : clear implicits.
Arguments Bookmaker F : clear implicits.
Arguments Opportunity F : clear implicits.
Arguments mkOdds {F} _ _ _.
Arguments mkGame {F} _ _ _ _ _.
Arguments mkBookmaker {F} _ _.

(** ** Exact arithmetic: the rationals *)

Module Exact.

(** [int(x)] on a rational: the quotient truncated toward zero. *)
Definition to_int (x : Q) : option Z :=
  let z := Z.quot (Qnum x) (Zpos (Qden x)) in
  if in_int_range z then Some z else None.

#[global] Instance ops : Float64 Q := {|
  f_add := Qplus;
  f_sub := Qminus;
  f_mul := Qmult;
  f_div := Qdiv;
  f_ltb := fun x y => negb (Qle_bool y x);
  f_of_int := inject_Z;
  f_to_int := to_int
|}.

End Exact.

(** ** IEEE 754 binary64 *)

Module B64.

Definition prec : Z := 53.
Definition emax : Z := 1024.

(** [float64(n)]: the integer rounded to nearest even. *)
Definition of_int (z : Z) : spec_float := binary_normalize prec emax z 0 false.

(** [int(x)]: the magnitude [m * 2^e] truncated, with its sign. *)
Definition to_int (x : spec_float) : option Z :=
  match x with
  | S754_zero _ => Some 0
  | S754_finite s m e =>
      let z := cond_Zopp s (Z.shiftl (Zpos m) e) in
      if in_int_range z then Some z else None
  | S754_infinity _ | S754_nan => None
  end.

#[global] Instance ops : Float64 spec_float := {|
  f_add := SFadd prec emax;
  f_sub := SFsub prec emax;
  f_mul := SFmul prec emax;
  f_div := SFdiv prec emax;
  f_ltb := SFltb;
  f_of_int := of_int;
  f_to_int := to_int
|}.

(** The decimal literal [n/d] (as [2.10] is [210/100]): the nearest
    binary64 value, as Go's parser and compiler produce it. *)
Definition dec (n d : Z) : spec_float := SFdiv prec emax (of_int n) (of_int d).

(** The rational [m * 2^e] a finite binary64 value stands for ([0] for
    the zeros; infinities and NaN stand for no rational and are mapped to
    [0] too). *)
Definition to_Q (x : spec_float) : Q :=
  match x with
  | S754_finite s m e =>
      match e with
      | Z0 => inject_Z (cond_Zopp s (Zpos m))
      | Zpos p => inject_Z (cond_Zopp s (Zpos m) * 2 ^ Zpos p)
      | Zneg p => cond_Zopp s (Zpos m) # 2 ^ p
      end
  | _ => 0%Q
  end.

Definition is_finite (x : spec_float) : bool :=
  match x with S754_zero _ | S754_finite _ _ _ => true | _ => false end.

(** [|x - y| <= tol * max |x| |y|] on finite values. *)
Definition within_rel_tol (tol : Q) (x y : spec_float) : bool :=
  is_finite x && is_finite y &&
  Qle_bool (Qabs (to_Q x - to_Q y))
           (tol * Qmax (Qabs (to_Q x)) (Qabs (to_Q y))).

Definition is_pinf_or_nan (x : spec_float) : bool :=
  match x with S754_infinity false | S754_nan => true | _ => false end.

Definition is_nan (x : spec_float) : bool :=
  match x with S754_nan => true | _ => false end.

Definition is_zero (x : spec_float) : bool :=
  match x with S754_zero _ => true | _ => false end.

Definition is_inf_or_nan (x : spec_float) : bool :=
  match x with S754_infinity _ | S754_nan => true | _ => false end.

(** The sign bit (a NaN carries none here). *)
Definition sign_bit (x : spec_float) : bool :=
  match x with
  | S754_zero s | S754_infinity s | S754_finite s _ _ => s
  | S754_nan => false
  end.

End B64.


(** ** Inputs used in the examples *)

(** The bookmakers of the specification's example: A quotes
    {2.10, 3.00, 4.00} and B quotes {1.90, 3.50, 4.20} for one event;
    in exact arithmetic and in binary64. *)
Definition specBookmakers : list (Bookmaker Q) :=
  [ mkBookmaker "A" [mkGame "e1" "home" "away" (mkOdds 2.10 3.00 4.00)%Q "t"];
    mkBookmaker "B" [mkGame "e1" "home" "away" (mkOdds 1.90 3.50 4.20)%Q "t"] ].

Definition specBookmakers64 : list (Bookmaker spec_float) :=
  [ mkBookmaker "A"
      [mkGame "e1" "home" "away"
         (mkOdds (B64.dec 210 100) (B64.dec 300 100) (B64.dec 400 100)) "t"];
    mkBookmaker "B"
      [mkGame "e1" "home" "away"
         (mkOdds (B64.dec 190 100) (B64.dec 350 100) (B64.dec 420 100)) "t"] ].

(** Their best odds, {2.10, 3.50, 4.20}. *)
Definition specBestOdds : Odds Q := (mkOdds 2.10 3.50 4.20)%Q.

Definition specBestOdds64 : Odds spec_float :=
  mkOdds (B64.dec 210 100) (B64.dec 350 100) (B64.dec 420 100).

(** Odds that satisfy an arbitrage condition, {3, 4, 5}. *)
Definition arbitrageOdds : Odds Q := (mkOdds 3 4 5)%Q.

(** One bookmaker quoting them, and what is reported for it. *)
Definition arbitrageBookmakers : list (Bookmaker Q) :=
  [ mkBookmaker "A" [mkGame "e2" "home" "away" arbitrageOdds "t"] ].

Definition arbitrageOpportunity : Opportunity Q :=
  {| oppGameID := "e2"; oppOdds := arbitrageOdds;
     oppWinStake := stake OWin (calculateStakes arbitrageOdds 100%Q);
     oppDrawStake := stake ODraw (calculateStakes arbitrageOdds 100%Q);
     oppLoseStake := stake OLose (calculateStakes arbitrageOdds 100%Q);
     oppGuaranteedProfit :=
       (100 / calculateArbitragePercentage arbitrageOdds
        - totalStake (calculateStakes arbitrageOdds 100))%Q |}.

(** The same in binary64. *)
Definition arbitrageOdds64 : Odds spec_float :=
  mkOdds (B64.of_int 3) (B64.of_int 4) (B64.of_int 5).

Definition arbitrageBookmakers64 : list (Bookmaker spec_float) :=
  [ mkBookmaker "A" [mkGame "e2" "home" "away" arbitrageOdds64 "t"] ].

(** A total bet of [1.7e308], close to the largest binary64 value. *)
Definition largeBet64 : spec_float := B64.of_int (17 * 10 ^ 307).

(** A zero price: {0, 2, 3}, and {-0, 2, 3} as the JSON text [-0] is read. *)
Definition zeroWinOdds : Odds spec_float :=
  mkOdds (S754_zero false) (B64.of_int 2) (B64.of_int 3).

Definition negZeroWinOdds : Odds spec_float :=
  mkOdds (S754_zero true) (B64.of_int 2) (B64.of_int 3).

Definition negZeroBookmakers : list (Bookmaker spec_float) :=
  [ mkBookmaker "A" [mkGame "e1" "home" "away" negZeroWinOdds "t"] ].

(** Nonzero prices whose reciprocals cancel: {-1, 2, 2}. *)
Definition cancellingOdds : Odds Q := (mkOdds (-1) 2 2)%Q.

Definition cancellingOdds64 : Odds spec_float :=
  mkOdds (B64.of_int (-1)) (B64.of_int 2) (B64.of_int 2).

(** Odds {2, 3, 7} and a total bet of ten units of the smallest positive
    binary64 value, [10 * 2^-1074]. *)
Definition smallBetOdds64 : Odds spec_float :=
  mkOdds (B64.of_int 2) (B64.of_int 3) (B64.of_int 7).

Definition smallBet64 : spec_float := S754_finite false 10 (-1074).

(** ** Persistence and the entry point

    [writeBookmakersToFile], [readBookmakersFromFile] and [main] are
    plumbing around calls of [encoding/json], [io/ioutil] and [os].  Those
    calls are the operations of an environment: [W] is the state of the file
    system, [B] the contents of a file, [E] the values of [error]. *)

Class Env (F W E B : Type) : Type := {
  (* json.MarshalIndent(bookmakers, "", "  ") *)
  marshalIndent : list (Bookmaker F) -> B + E;
  (* json.Unmarshal(data, &bookmakers) on a nil slice: the slice as it is
     left, and the error *)
  unmarshal : B -> list (Bookmaker F) * option E;
  (* ioutil.WriteFile(filename, data, 0644) *)
  writeFile : string -> B -> W -> W * option E;
  (* ioutil.ReadFile(filename) *)
  readFile : string -> W -> B + E;
  (* os.IsNotExist(err) for the err of os.Stat(filename) *)
  statIsNotExist : string -> W -> bool
}.

Section Persistence.
Context {F W E B : Type} `{Float64 F} `{Env F W E B}.

Definition writeBookmakersToFile (bookmakers : list (Bookmaker F))
    (filename : string) (w : W) : W * option E :=
  match marshalIndent bookmakers with
  | inr err => (w, Some err)
  | inl data => writeFile filename data w
  end.

(** A failed read returns the nil slice; a failed decoding returns the slice
    as the decoder left it, with the error. *)
Definition readBookmakersFromFile (filename : string) (w : W)
  : list (Bookmaker F) * option E :=
  match readFile filename w with
  | inr err => ([], Some err)
  | inl data => unmarshal data
  end.

(** What [main] prints: one of the two error lines, or the blocks of
    [findArbitrageOpportunities]. *)
Inductive Output : Type :=
  | ErrorWriting (err : E)
  | ErrorReading (err : E)
  | Found (opp : Opportunity F).

Definition filename : string := "bookmakers.json".

(** [main], given the state of the file system and the value [generated]
    that [generateBookmakers(100, 10000)] returns if it is called. *)
Definition main (generated : list (Bookmaker F)) (w : W) : W * list Output :=
  if statIsNotExist filename w then
    let bookmakers := generated in
    match writeBookmakersToFile bookmakers filename w with
    | (w', Some err) => (w', [ErrorWriting err])
    | (w', None) => (w', Found <$> findArbitrageOpportunities bookmakers)
    end
  else
    match readBookmakersFromFile filename w with
    | (_, Some err) => (w, [ErrorReading err])
    | (bookmakers, None) =>
        (w, Found <$> findArbitrageOpportunities bookmakers)
    end.

End Persistence.

Arguments Output F E : clear implicits.

(** A file system kept in memory, with the bookmakers themselves as file
    contents: an environment in which every call succeeds but the reading of
    a missing file. *)
Module MemFS.

#[global] Instance env : Env Q (gmap string (list (Bookmaker Q))) unit
    (list (Bookmaker Q)) := {|
  marshalIndent := fun bookmakers => inl bookmakers;
  unmarshal := fun data => (data, None);
  writeFile := fun name data w => (<[name := data]> w, None);
  readFile := fun name w =>
    match w !! name with Some data => inl data | None => inr tt end;
  statIsNotExist := fun name w =>
    match w !! name with Some _ => false | None => true end
|}.

End MemFS.

(** A file system on which every write fails and nothing exists. *)
Module ReadOnlyFS.

Definition env : Env Q unit unit (list (Bookmaker Q)) := {|
  marshalIndent := fun bookmakers => inl bookmakers;
  unmarshal := fun data => (data, None);
  writeFile := fun name data w => (w, Some tt);
  readFile := fun name w => inr tt;
  statIsNotExist := fun name w => true
|}.

End ReadOnlyFS.

(** * Properties of the program *)

(** ** [findBestOdds]: one pass over all quotes *)

Section BestOdds.
Context {F : Type} `{Float64 F}.
Local Open Scope f64_scope.
Implicit Types (best : gmap string (Odds F)) (g : Game F)
  (qs : list (Game F)) (bks : list (Bookmaker F)) (id : string).

Lemma keepBest_absent best g :
  best !! ID g = None ->
  keepBest best g = <[ID g := GameOdds g]> best.
Proof.
  intros Hnone. unfold keepBest, lookupBest. rewrite Hnone. simpl.
  by destruct (GameOdds g).
Qed.

Lemma keepBest_present best g stored :
  best !! ID g = Some stored ->
  keepBest best g = <[ID g := mergeOdds stored (GameOdds g)]> best.
Proof.
  intros Hsome. unfold keepBest, lookupBest. rewrite Hsome. simpl.
  f_equal. unfold mergeOdds, larger.
  destruct stored as [w d l], (GameOdds g) as [w' d' l']. simpl.
  destruct (w <? w'); simpl; destruct (d <? d'); simpl;
    by destruct (l <? l').
Qed.

Lemma keepBest_other best g id :
  ID g <> id -> keepBest best g !! id = best !! id.
Proof.
  intros Hne. destruct (best !! ID g) as [stored|] eqn:Hl.
  - rewrite (keepBest_present _ _ _ Hl). by apply lookup_insert_ne.
  - rewrite (keepBest_absent _ _ Hl). by apply lookup_insert_ne.
Qed.

Lemma keepBest_dom best g : dom (keepBest best g) = {[ID g]} ∪ dom best.
Proof.
  destruct (best !! ID g) as [stored|] eqn:Hl.
  - rewrite (keepBest_present _ _ _ Hl). apply dom_insert_L.
  - rewrite (keepBest_absent _ _ Hl). apply dom_insert_L.
Qed.

Lemma price_mergeOdds (o : outcome) (stored new : Odds F) :
  price o (mergeOdds stored new) = larger (price o stored) (price o new).
Proof. by destruct o. Qed.

(** The two nested loops are one loop over the concatenated quotes. *)
Lemma findBestOdds_quotes bks :
  findBestOdds bks = foldl keepBest ∅ (quotes bks).
Proof.
  unfold findBestOdds, quotes. generalize (∅ : gmap string (Odds F)).
  induction bks as [|b bks IH]; intros best; simpl; [done|].
  by rewrite foldl_app, IH.
Qed.

Lemma elem_of_quotes bks g :
  g ∈ quotes bks <-> exists b, b ∈ bks /\ g ∈ Games b.
Proof.
  unfold quotes. induction bks as [|b0 bks IH]; simpl.
  - split; [by intros ?%elem_of_nil|by intros (b & ?%elem_of_nil & _)].
  - rewrite elem_of_app, IH. split.
    + intros [Hg|(b & Hb & Hg)]; [exists b0|exists b];
        (split; [|done]); [left|by right].
    + intros (b & Hb & Hg). apply elem_of_cons in Hb as [->|Hb]; eauto.
Qed.

Lemma foldl_keepBest_dom best qs :
  dom (foldl keepBest best qs) = dom best ∪ list_to_set (ID <$> qs).
Proof.
  revert best. induction qs as [|g qs IH]; intros best; simpl.
  - by rewrite (right_id_L ∅ (∪)).
  - by rewrite IH, keepBest_dom, (comm_L (∪) {[ID g]}), <- (assoc_L (∪)).
Qed.

Lemma findBestOdds_dom bks :
  dom (findBestOdds bks) = list_to_set (ID <$> quotes bks).
Proof.
  by rewrite findBestOdds_quotes, foldl_keepBest_dom, dom_empty_L,
    (left_id_L ∅ (∪)).
Qed.

Lemma findBestOdds_quoted bks id :
  is_Some (findBestOdds bks !! id) <->
  exists b g, b ∈ bks /\ g ∈ Games b /\ ID g = id.
Proof.
  rewrite <- elem_of_dom, findBestOdds_dom, elem_of_list_to_set,
    list_elem_of_fmap. split.
  - intros (g & -> & Hg). apply elem_of_quotes in Hg as (b & Hb & Hg).
    eauto.
  - intros (b & g & Hb & Hg & <-). exists g. split; [done|].
    apply elem_of_quotes. eauto.
Qed.

End BestOdds.

(** ** [findBestOdds]: the stored value is the largest quote

    What the pass needs of [<] is that it is a strict order; nothing else
    about the numbers matters. *)

Section BestOddsOrder.
Context {F : Type} `{Float64 F}.
Local Open Scope f64_scope.
Implicit Types (best : gmap string (Odds F)) (g : Game F)
  (qs : list (Game F)) (bks : list (Bookmaker F)) (id : string).

Hypothesis ltb_irrefl : forall x : F, (x <? x) = false.
Hypothesis ltb_trans :
  forall x y z : F, (x <? y) = true -> (y <? z) = true -> (x <? z) = true.

Lemma larger_bound (stored new x : F) :
  (x >? stored) = false -> (x >? larger stored new) = false.
Proof using ltb_trans.
  unfold larger. intros Hx. destruct (stored <? new) eqn:Hlt; [|done].
  destruct (new <? x) eqn:Hnx; [|done].
  by rewrite (ltb_trans _ _ _ Hlt Hnx) in Hx.
Qed.

Lemma larger_new (stored new : F) : (new >? larger stored new) = false.
Proof using ltb_irrefl.
  unfold larger. destruct (stored <? new) eqn:Hlt; [apply ltb_irrefl|done].
Qed.

Lemma larger_cases (stored new : F) :
  larger stored new = stored \/ larger stored new = new.
Proof. unfold larger. destruct (stored <? new); auto. Qed.

Lemma foldl_keepBest_largest qs id stored :
  foldl keepBest ∅ qs !! id = Some stored ->
  forall o, largest_quote qs id o (price o stored).
Proof using ltb_irrefl ltb_trans.
  revert stored. induction qs as [|g qs IH] using rev_ind; intros stored.
  { simpl. by rewrite lookup_empty. }
  rewrite foldl_snoc. destruct (decide (ID g = id)) as [<-|Hne].
  - destruct (foldl keepBest ∅ qs !! ID g) as [prev|] eqn:Hprev.
    + rewrite (keepBest_present _ _ _ Hprev), lookup_insert_eq.
      intros [= <-] o. rewrite price_mergeOdds.
      destruct (IH _ eq_refl o) as [(g' & Hg' & Hid & Hv) Hub]. split.
      * destruct (larger_cases (price o prev) (price o (GameOdds g)))
          as [-> | ->].
        -- exists g'. rewrite elem_of_app. auto.
        -- exists g. rewrite elem_of_app, list_elem_of_singleton. auto.
      * intros g0 [Hg0|Hg0%list_elem_of_singleton]%elem_of_app Hid0.
        -- apply larger_bound. by apply Hub.
        -- subst g0. apply larger_new.
    + rewrite (keepBest_absent _ _ Hprev), lookup_insert_eq.
      intros [= <-] o. split.
      * exists g. rewrite elem_of_app, list_elem_of_singleton. auto.
      * intros g0 [Hg0|Hg0%list_elem_of_singleton]%elem_of_app Hid0.
        -- exfalso. apply not_elem_of_dom in Hprev. apply Hprev.
           rewrite foldl_keepBest_dom, dom_empty_L, elem_of_union,
             elem_of_list_to_set, list_elem_of_fmap. right. eauto.
        -- subst g0. apply ltb_irrefl.
  - rewrite keepBest_other by done. intros Hl o.
    destruct (IH _ Hl o) as [(g' & Hg' & Hid & Hv) Hub]. split.
    + exists g'. rewrite elem_of_app. auto.
    + intros g0 [Hg0|Hg0%list_elem_of_singleton]%elem_of_app Hid0.
      * by apply Hub.
      * by subst g0.
Qed.

Lemma findBestOdds_largest bks id stored :
  findBestOdds bks !! id = Some stored ->
  forall o, largest_quote (quotes bks) id o (price o stored).
Proof using ltb_irrefl ltb_trans.
  rewrite findBestOdds_quotes. apply foldl_keepBest_largest.
Qed.

End BestOddsOrder.

(** ** [findBestOdds]: the keys *)

Section KeySet.
Context {F : Type} `{Float64 F}.
Implicit Types (bks : list (Bookmaker F)) (g : Game F).



End KeySet.

(** ** [findArbitrageOpportunities]: what is reported *)

Section Report.
Context {F : Type} `{Float64 F}.
Local Open Scope f64_scope.
Implicit Types (bks : list (Bookmaker F)) (odds : Odds F)
  (opp : Opportunity F).

Lemma elem_of_findArbitrageOpportunities bks opp :
  opp ∈ findArbitrageOpportunities bks <->
  exists id odds, findBestOdds bks !! id = Some odds /\
                  reportOpportunity (id, odds) = Some opp.
Proof.
  unfold findArbitrageOpportunities. rewrite list_elem_of_omap. split.
  - intros ([id odds] & Hin & Hrep). apply elem_of_map_to_list in Hin. eauto.
  - intros (id & odds & Hl & Hrep). exists (id, odds).
    by rewrite elem_of_map_to_list.
Qed.

Lemma reportOpportunity_Some id odds opp :
  reportOpportunity (id, odds) = Some opp <->
  (calculateArbitragePercentage odds <? f1) = true /\
  opp = {| oppGameID := id; oppOdds := odds;
           oppWinStake := stake OWin (calculateStakes odds f100);
           oppDrawStake := stake ODraw (calculateStakes odds f100);
           oppLoseStake := stake OLose (calculateStakes odds f100);
           oppGuaranteedProfit :=
             f100 / calculateArbitragePercentage odds
             - totalStake (calculateStakes odds f100) |}.
Proof.
  unfold reportOpportunity. simpl.
  destruct (calculateArbitragePercentage odds <? f1).
  - split; [by intros [= <-]|by intros [_ ->]].
  - split; [done|by intros [? _]].
Qed.

Lemma stake_calculateStakes odds (totalBet : F) (o : outcome) :
  stake o (calculateStakes odds totalBet)
  = totalBet / calculateArbitragePercentage odds / price o odds.
Proof. by destruct o. Qed.

Lemma elem_of_findArbitrageOpportunities_inv bks opp :
  opp ∈ findArbitrageOpportunities bks ->
  (oppWinStake opp, oppDrawStake opp, oppLoseStake opp)
  = calculateStakes (oppOdds opp) f100 /\
  oppGuaranteedProfit opp
  = f100 / calculateArbitragePercentage (oppOdds opp)
    - totalStake (calculateStakes (oppOdds opp) f100).
Proof.
  intros (id & odds & _ & Hr)%elem_of_findArbitrageOpportunities.
  by apply reportOpportunity_Some in Hr as [_ ->].
Qed.

End Report.

(** ** Exact arithmetic: the order of the rationals *)

Section ExactOrder.
Local Open Scope Q_scope.

Lemma exact_ltb_lt (x y : Q) : f_ltb x y = true <-> x < y.
Proof.
  simpl. rewrite negb_true_iff, <- not_true_iff_false, Qle_bool_iff.
  split; [apply Qnot_le_lt|apply Qlt_not_le].
Qed.

Lemma exact_ltb_ge (x y : Q) : f_ltb x y = false <-> y <= x.
Proof.
  simpl. rewrite negb_false_iff. apply Qle_bool_iff.
Qed.

Lemma exact_ltb_irrefl (x : Q) : f_ltb x x = false.
Proof. apply exact_ltb_ge, Qle_refl. Qed.

Lemma exact_ltb_trans (x y z : Q) :
  f_ltb x y = true -> f_ltb y z = true -> f_ltb x z = true.
Proof. rewrite !exact_ltb_lt. apply Qlt_trans. Qed.

End ExactOrder.

(** ** Exact arithmetic: payouts, total stake, profit *)

Section ExactStakes.
Local Open Scope Q_scope.
Implicit Types (odds : Odds Q) (totalBet : Q).

Lemma exact_percentage odds :
  calculateArbitragePercentage odds
  = 1 / Win odds + 1 / Draw odds + 1 / Lose odds.
Proof. reflexivity. Qed.



Lemma Qsum_of_shares (t a w d l : Q) :
  ~ w == 0 -> ~ d == 0 -> ~ l == 0 -> ~ a == 0 ->
  a == 1 / w + 1 / d + 1 / l ->
  t / a / w + t / a / d + t / a / l == t.
Proof.
  intros Hw Hd Hl Ha Hsum.
  transitivity (t / a * (1 / w + 1 / d + 1 / l)); [by field|].
  rewrite <- Hsum. by field.
Qed.

Lemma exact_totalStake odds totalBet :
  ~ Win odds == 0 -> ~ Draw odds == 0 -> ~ Lose odds == 0 ->
  ~ calculateArbitragePercentage odds == 0 ->
  totalStake (calculateStakes odds totalBet) == totalBet.
Proof.
  intros Hw Hd Hl Ha.
  exact (Qsum_of_shares totalBet (calculateArbitragePercentage odds)
           _ _ _ Hw Hd Hl Ha (Qeq_refl _)).
Qed.

Lemma exact_profit odds totalBet :
  ~ Win odds == 0 -> ~ Draw odds == 0 -> ~ Lose odds == 0 ->
  ~ calculateArbitragePercentage odds == 0 ->
  totalBet / calculateArbitragePercentage odds
  - totalStake (calculateStakes odds totalBet)
  == totalBet * (1 / calculateArbitragePercentage odds - 1).
Proof.
  intros Hw Hd Hl Ha. rewrite exact_totalStake by assumption.
  by field.
Qed.

Lemma exact_percentage_pos odds :
  0 < Win odds -> 0 < Draw odds -> 0 < Lose odds ->
  0 < calculateArbitragePercentage odds.
Proof.
  intros Hw Hd Hl. rewrite exact_percentage.
  assert (forall x, 0 < x -> 0 < 1 / x) as Hinv.
  { intros x Hx. unfold Qdiv. rewrite Qmult_1_l. by apply Qinv_lt_0_compat. }
  apply Hinv in Hw, Hd, Hl.
  rewrite <- (Qplus_0_l 0). apply Qplus_lt_le_compat; [|by apply Qlt_le_weak].
  rewrite <- (Qplus_0_l 0). apply Qplus_lt_le_compat; [done|].
  by apply Qlt_le_weak.
Qed.

End ExactStakes.

(** ** Exact arithmetic: [int(x)] *)

Section ExactRounding.
Local Open Scope Q_scope.

Lemma exact_to_int_nonneg (x : Q) :
  0 <= x -> x < inject_Z (2 ^ 63) ->
  Exact.to_int x = Some (Qfloor x).
Proof.
  intros Hx Hmax.
  assert (Z.quot (Qnum x) (Zpos (Qden x)) = Qfloor x) as Hq.
  { destruct x as [n d]. unfold Qle in Hx. simpl in *.
    apply Z.quot_div_nonneg; lia. }
  assert (0 <= Qfloor x < 2 ^ 63)%Z as Hrange.
  { split.
    - change 0%Z with (Qfloor 0). by apply Qfloor_resp_le.
    - rewrite Zlt_Qlt. eapply Qle_lt_trans; [apply Qfloor_le|done]. }
  unfold Exact.to_int. rewrite Hq. unfold in_int_range, int_min, int_max.
  destruct (Z.leb_spec (- 2 ^ 63) (Qfloor x)); [|lia].
  destruct (Z.leb_spec (Qfloor x) (2 ^ 63 - 1)); [done|lia].
Qed.

Lemma exact_to_int_neg (x : Q) :
  x < 0 -> inject_Z (- 2 ^ 63) <= x ->
  Exact.to_int x = Some (Qceiling x).
Proof.
  intros Hx Hmin.
  assert (Z.quot (Qnum x) (Zpos (Qden x)) = Qceiling x) as Hq.
  { destruct x as [n d]. unfold Qlt in Hx. unfold Qceiling. simpl in *.
    rewrite <- (Z.opp_involutive n) at 1.
    rewrite Z.quot_opp_l by lia. f_equal. apply Z.quot_div_nonneg; lia. }
  assert (- 2 ^ 63 <= Qceiling x <= 0)%Z as Hrange.
  { split.
    - rewrite Zle_Qle. eapply Qle_trans; [done|apply Qle_ceiling].
    - assert (Qceiling x - 1 < 0)%Z; [|lia].
      rewrite Zlt_Qlt. eapply Qlt_trans; [apply Qceiling_lt|done]. }
  unfold Exact.to_int. rewrite Hq. unfold in_int_range, int_min, int_max.
  destruct (Z.leb_spec (- 2 ^ 63) (Qceiling x)); [|lia].
  destruct (Z.leb_spec (Qceiling x) (2 ^ 63 - 1)); [done|lia].
Qed.

End ExactRounding.

(** ** Binary64: infinities, NaN and signs under [+] and [/] *)

Section B64Zero.
Local Open Scope f64_scope.
Implicit Types (x y : spec_float) (odds : Odds spec_float).

Lemma b64_one : (f1 : spec_float) = S754_finite false 4503599627370496 (-52).
Proof. reflexivity. Qed.

Lemma b64_div_one_zero (s : bool) : f1 / S754_zero s = S754_infinity s.
Proof. by destruct s. Qed.

Lemma b64_add_inf_l x y :
  B64.is_inf_or_nan x = true -> B64.is_inf_or_nan (x + y) = true.
Proof. by destruct x as [| [] | |], y as [| [] | |]. Qed.

Lemma b64_add_inf_r x y :
  B64.is_inf_or_nan y = true -> B64.is_inf_or_nan (x + y) = true.
Proof. by destruct x as [| [] | |], y as [| [] | |]. Qed.

Lemma binary_round_aux_sign (sx : bool) (mx ex : Z) (lx : location) :
  B64.sign_bit (binary_round_aux B64.prec B64.emax sx mx ex lx) = sx \/
  binary_round_aux B64.prec B64.emax sx mx ex lx = S754_nan.
Proof.
  unfold binary_round_aux.
  destruct (shr_fexp _ _ _ _ _) as [mrs' e'].
  destruct (shr_fexp _ _ _ _ _) as [mrs'' e''].
  destruct (shr_m mrs''); [by left| |by right].
  destruct (Z.leb _ _); by left.
Qed.

Lemma b64_div_one_not_negative x :
  B64.sign_bit x = false -> B64.sign_bit (f1 / x) = false.
Proof.
  rewrite b64_one. destruct x as [s|s| |s m e]; simpl; try done.
  intros ->.
  destruct (SFdiv_core_binary _ _ _ _ _ _) as [[mz ez] lz].
  by destruct (binary_round_aux_sign false mz ez lz) as [-> | ->].
Qed.

Lemma b64_add_not_negative x y :
  B64.sign_bit x = false -> B64.sign_bit y = false ->
  B64.sign_bit (x + y) = false.
Proof.
  destruct x as [sx|sx| |sx mx ex], y as [sy|sy| |sy my ey]; simpl;
    try (intros -> ->; done); try done.
  intros -> ->. simpl. unfold binary_round.
  destruct (shl_align _ _ _) as [mz ez].
  by destruct (binary_round_aux_sign false (Z.pos mz) ez loc_Exact)
    as [-> | ->].
Qed.

Lemma b64_add_pinf_l x y :
  B64.is_pinf_or_nan x = true -> B64.sign_bit y = false ->
  B64.is_pinf_or_nan (x + y) = true.
Proof. by destruct x as [| [] | |], y as [| [] | |]. Qed.

Lemma b64_add_pinf_r x y :
  B64.sign_bit x = false -> B64.is_pinf_or_nan y = true ->
  B64.is_pinf_or_nan (x + y) = true.
Proof. by destruct x as [| [] | |], y as [| [] | |]. Qed.

Lemma b64_pinf_not_lt x y : B64.is_pinf_or_nan x = true -> (x <? y) = false.
Proof. by destruct x as [| [] | |], y as [| [] | | []]. Qed.

End B64Zero.

(** ** Binary64: what a zero price does *)

Section B64ZeroPrice.
Local Open Scope f64_scope.
Implicit Types (x y : spec_float) (odds : Odds spec_float).

Lemma b64_is_zero_inv x :
  B64.is_zero x = true -> x = S754_zero (B64.sign_bit x).
Proof. by destruct x. Qed.

Lemma b64_div_one_zero_inf x :
  B64.is_zero x = true -> B64.is_inf_or_nan (f1 / x) = true.
Proof.
  intros Hz. rewrite (b64_is_zero_inv _ Hz). by rewrite b64_div_one_zero.
Qed.

Lemma b64_div_one_zero_pinf x :
  B64.is_zero x = true -> B64.sign_bit x = false ->
  B64.is_pinf_or_nan (f1 / x) = true.
Proof.
  intros Hz Hs. rewrite (b64_is_zero_inv _ Hz), Hs.
  by rewrite b64_div_one_zero.
Qed.

Lemma b64_percentage_zero_price odds :
  B64.is_zero (Win odds) || B64.is_zero (Draw odds)
    || B64.is_zero (Lose odds) = true ->
  B64.is_inf_or_nan (calculateArbitragePercentage odds) = true.
Proof.
  unfold calculateArbitragePercentage.
  intros [[Hz|Hz]%orb_true_iff|Hz]%orb_true_iff.
  - by apply b64_add_inf_l, b64_add_inf_l, b64_div_one_zero_inf.
  - by apply b64_add_inf_l, b64_add_inf_r, b64_div_one_zero_inf.
  - by apply b64_add_inf_r, b64_div_one_zero_inf.
Qed.

Lemma b64_percentage_zero_price_pinf odds :
  B64.is_zero (Win odds) || B64.is_zero (Draw odds)
    || B64.is_zero (Lose odds) = true ->
  B64.sign_bit (Win odds) = false -> B64.sign_bit (Draw odds) = false ->
  B64.sign_bit (Lose odds) = false ->
  B64.is_pinf_or_nan (calculateArbitragePercentage odds) = true.
Proof.
  unfold calculateArbitragePercentage.
  intros Hz Hw Hd Hl.
  pose proof (b64_div_one_not_negative _ Hw) as Hrw.
  pose proof (b64_div_one_not_negative _ Hd) as Hrd.
  pose proof (b64_div_one_not_negative _ Hl) as Hrl.
  apply orb_true_iff in Hz as [[Hz|Hz]%orb_true_iff|Hz].
  - apply b64_add_pinf_l; [|done]. apply b64_add_pinf_l; [|done].
    by apply b64_div_one_zero_pinf.
  - apply b64_add_pinf_l; [|done]. apply b64_add_pinf_r; [done|].
    by apply b64_div_one_zero_pinf.
  - apply b64_add_pinf_r; [by apply b64_add_not_negative|].
    by apply b64_div_one_zero_pinf.
Qed.

Lemma b64_stake_zero_price x y z :
  B64.is_inf_or_nan y = true -> B64.is_zero z = true ->
  x / y / z = S754_nan.
Proof. by destruct x, y, z. Qed.

End B64ZeroPrice.

(** ** Binary64: [int(x)] truncates toward zero *)

Section B64Rounding.
Local Open Scope f64_scope.
Implicit Types (x y : spec_float).

Lemma b64_shiftl_floor (m : positive) (e : Z) :
  Z.shiftl (Zpos m) e = Qfloor (B64.to_Q (S754_finite false m e)).
Proof.
  destruct e as [|p|p]; simpl B64.to_Q.
  - by rewrite Qfloor_Z.
  - rewrite Qfloor_Z. by rewrite Z.shiftl_mul_pow2.
  - change (Z.shiftl (Zpos m) (Zneg p)) with (Z.shiftr (Zpos m) (Zpos p)).
    rewrite Z.shiftr_div_pow2 by done. simpl. by rewrite Pos2Z.inj_pow.
Qed.

Lemma b64_shiftl_ceiling (m : positive) (e : Z) :
  (- Z.shiftl (Zpos m) e)%Z = Qceiling (B64.to_Q (S754_finite true m e)).
Proof.
  rewrite b64_shiftl_floor. unfold Qceiling. f_equal.
  destruct e as [|p|p]; simpl; try done.
  f_equal. unfold Qopp, inject_Z. simpl. f_equal. lia.
Qed.

Lemma b64_to_int_floor x (n : Z) :
  B64.sign_bit x = false -> B64.to_int x = Some n ->
  n = Qfloor (B64.to_Q x).
Proof.
  destruct x as [s|s| |s m e]; simpl; try done.
  - by intros _ [= <-].
  - intros ->. simpl. destruct (in_int_range _); [|done].
    intros [= <-]. apply b64_shiftl_floor.
Qed.

Lemma b64_to_int_ceiling x (n : Z) :
  B64.sign_bit x = true -> B64.to_int x = Some n ->
  n = Qceiling (B64.to_Q x).
Proof.
  destruct x as [s|s| |s m e]; simpl; try done.
  - by intros _ [= <-].
  - intros ->. simpl. destruct (in_int_range _); [|done].
    intros [= <-]. apply b64_shiftl_ceiling.
Qed.

Lemma b64_mul_sign x y :
  B64.sign_bit (x * y) = xorb (B64.sign_bit x) (B64.sign_bit y) \/
  x * y = S754_nan.
Proof.
  destruct x as [sx|sx| |sx mx ex], y as [sy|sy| |sy my ey]; simpl; auto.
  apply binary_round_aux_sign.
Qed.

Lemma b64_hundred :
  (f100 : spec_float) = S754_finite false 7036874417766400 (-46).
Proof. reflexivity. Qed.

Lemma b64_scaled_sign x (n : Z) :
  B64.to_int (x * f100) = Some n ->
  B64.sign_bit (x * f100) = B64.sign_bit x.
Proof.
  intros Hn. destruct (b64_mul_sign x f100) as [-> | Hnan].
  - rewrite b64_hundred. simpl. by destruct (B64.sign_bit x).
  - by rewrite Hnan in Hn.
Qed.

Lemma b64_sign_not_lt_zero x :
  B64.sign_bit x = false -> (x <? f_of_int 0) = false.
Proof. by destruct x as [s|[]| |[] m e]. Qed.

Lemma b64_to_int_not_negative x (n : Z) :
  (x <? f_of_int 0) = false -> B64.to_int x = Some n ->
  n = Qfloor (B64.to_Q x).
Proof.
  destruct x as [s|s| |[] m e]; try done.
  - by intros _ [= <-].
  - intros _. by apply b64_to_int_floor.
Qed.

Lemma b64_scaled_not_negative x :
  SFleb (f_of_int 0) x = true -> (x * f100 <? f_of_int 0) = false.
Proof.
  destruct x as [s|[]| |[] m e]; try done. intros _.
  destruct (b64_mul_sign (S754_finite false m e) f100) as [Hs | ->];
    [|done].
  apply b64_sign_not_lt_zero. by rewrite Hs, b64_hundred.
Qed.

Lemma b64_lt_zero_sign x : (x <? f_of_int 0) = true -> B64.sign_bit x = true.
Proof. by destruct x as [s|[]| |[] m e]. Qed.

End B64Rounding.

(** ** Binary64: [<] is a strict order, NaN included *)

Section B64Order.
Implicit Types (x y z : spec_float).

Lemma SFcompare_Lt_irrefl x : SFcompare x x <> Some Lt.
Proof.
  destruct x as [s|[]| |[] m e]; simpl; try done;
    rewrite Z.compare_refl;
    change (Pos.compare_cont Eq m m) with (Pos.compare m m);
    by rewrite Pos.compare_refl.
Qed.

Lemma SFcompare_Lt_trans x y z :
  SFcompare x y = Some Lt -> SFcompare y z = Some Lt ->
  SFcompare x z = Some Lt.
Proof.
  destruct x as [sx|sx| |sx mx ex], y as [sy|sy| |sy my ey],
    z as [sz|sz| |sz mz ez]; simpl; try done;
    try (by destruct sx, sy); try (by destruct sy, sz);
    try (by destruct sx, sz); try (by destruct sx, sy, sz).
  change (Pos.compare_cont Eq mx my) with (Pos.compare mx my).
  change (Pos.compare_cont Eq my mz) with (Pos.compare my mz).
  change (Pos.compare_cont Eq mx mz) with (Pos.compare mx mz).
  destruct sx, sy, sz; try done;
    destruct (Z.compare_spec ex ey), (Z.compare_spec ey ez),
      (Z.compare_spec ex ez); try done; try lia;
    destruct (Pos.compare_spec mx my), (Pos.compare_spec my mz),
      (Pos.compare_spec mx mz); simpl; try done; try lia.
Qed.

Lemma SFcompare_antisym x y :
  SFcompare y x = option_map CompOpp (SFcompare x y).
Proof.
  destruct x as [sx|sx| |sx mx ex], y as [sy|sy| |sy my ey]; simpl;
    try done; try (by destruct sx); try (by destruct sy);
    try (by destruct sx, sy).
  change (Pos.compare_cont Eq my mx) with (Pos.compare my mx).
  change (Pos.compare_cont Eq mx my) with (Pos.compare mx my).
  rewrite (Z.compare_antisym ex ey), (Pos.compare_antisym mx my).
  destruct sx, sy; try done; destruct (ex ?= ey)%Z; simpl; try done;
    by destruct (mx ?= my)%positive.
Qed.

(** Away from NaN, "not greater" is [<=]. *)
Lemma b64_not_gt_le x y :
  B64.is_nan x = false -> B64.is_nan y = false ->
  f_ltb y x = false -> SFleb x y = true.
Proof.
  simpl. unfold SFltb, SFleb. rewrite (SFcompare_antisym x y).
  intros Hx Hy. destruct (SFcompare x y) as [[]|] eqn:Hc; simpl; try done.
  by destruct x, y.
Qed.

Lemma b64_ltb_irrefl x : f_ltb x x = false.
Proof.
  simpl. unfold SFltb. pose proof (SFcompare_Lt_irrefl x).
  by destruct (SFcompare x x) as [[]|].
Qed.

Lemma b64_ltb_trans x y z :
  f_ltb x y = true -> f_ltb y z = true -> f_ltb x z = true.
Proof.
  simpl. unfold SFltb. intros Hxy Hyz.
  rewrite (SFcompare_Lt_trans x y z); [done| |].
  - by destruct (SFcompare x y) as [[]|].
  - by destruct (SFcompare y z) as [[]|].
Qed.

End B64Order.

(** ** Binary64: the model against the primitive floats

    The decimal literals of the examples are the binary64 values that
    Rocq's primitive floats read, and on the computations of the examples
    below the operations of [B64.ops] return what the primitive (hardware)
    operations return. *)

#[warnings="-inexact-float"]
Example b64_literals_primitive :
  Prim2SF 2.1 = Win specBestOdds64 /\
  Prim2SF 3.5 = Draw specBestOdds64 /\
  Prim2SF 4.2 = Lose specBestOdds64 /\
  Prim2SF 0.29 = B64.dec 29 100 /\
  Prim2SF (-1.237) = B64.dec (-1237) 1000 /\
  Prim2SF 100 = f100%F /\ Prim2SF 1 = f1%F.
Proof. vm_compute. repeat split. Qed.

#[warnings="-inexact-float"]
Example b64_operations_primitive :
  Prim2SF (1 / 2.1 + 1 / 3.5 + 1 / 4.2)%float
  = calculateArbitragePercentage specBestOdds64 /\
  Prim2SF (1 / 0 + 1 / 2 + 1 / 3)%float
  = calculateArbitragePercentage zeroWinOdds /\
  Prim2SF (1 / (-1) + 1 / 2 + 1 / 2)%float
  = calculateArbitragePercentage cancellingOdds64 /\
  (let t := SF2Prim smallBet64 in
   let a := (1 / 2 + 1 / 3 + 1 / 7)%float in
   (Prim2SF (t / a / 2 * 2)%float, Prim2SF (t / a / 3 * 3)%float,
    Prim2SF (t / a / 7 * 7)%float))
  = (payout OWin smallBetOdds64 smallBet64,
     payout ODraw smallBetOdds64 smallBet64,
     payout OLose smallBetOdds64 smallBet64) /\
  Prim2SF (0.29 * 100)%float = (B64.dec 29 100 * f100)%F.
Proof. vm_compute. repeat split. Qed.

(** * The claims of the specification *)

(** ** C1: every field of a stored entry is the maximum of its quotes *)


(** The example of the specification: the win price of A is kept with the
    draw and lose prices of B. *)
Example findBestOdds_specBookmakers :
  findBestOdds specBookmakers !! "e1" = Some specBestOdds /\
  findBestOdds specBookmakers64 !! "e1" = Some specBestOdds64.
Proof. vm_compute. split; reflexivity. Qed.

(** C1.  For every collection of bookmakers and every event id quoted by at
    least one of them, [findBestOdds] stores an entry for that id, and for
    each of the three outcomes separately the stored price is the maximum of
    the prices quoted for that id: it is the price of some (bookmaker, game)
    quote carrying the id, and it is [>=] the price of every such quote.
    The quote that attains the maximum may differ from one outcome to the
    other.  This is first stated over the rationals.  In binary64 the same
    holds with [>=] read as "no quote compares greater than the stored
    price", which is IEEE [<=] whenever neither price is a NaN. *)
Theorem findBestOdds_field_maximum :
  (forall (bookmakers : list (Bookmaker Q)) (id : string),
     (exists b g, b ∈ bookmakers /\ g ∈ Games b /\ ID g = id) ->
     exists stored, findBestOdds bookmakers !! id = Some stored /\
       forall o : outcome,
         (exists b g, b ∈ bookmakers /\ g ∈ Games b /\ ID g = id /\
                      price o (GameOdds g) = price o stored) /\
         (forall b g, b ∈ bookmakers -> g ∈ Games b -> ID g = id ->
                      (price o (GameOdds g) <= price o stored)%Q)) /\
  (forall (bookmakers : list (Bookmaker spec_float)) (id : string),
     (exists b g, b ∈ bookmakers /\ g ∈ Games b /\ ID g = id) ->
     exists stored, findBestOdds bookmakers !! id = Some stored /\
       forall o : outcome,
         (exists b g, b ∈ bookmakers /\ g ∈ Games b /\ ID g = id /\
                      price o (GameOdds g) = price o stored) /\
         (forall b g, b ∈ bookmakers -> g ∈ Games b -> ID g = id ->
            (price o (GameOdds g) >? price o stored)%F = false /\
            (B64.is_nan (price o (GameOdds g)) = false ->
             B64.is_nan (price o stored) = false ->
             SFleb (price o (GameOdds g)) (price o stored) = true))).
Proof.
  split.
  - intros bookmakers id Hq. apply findBestOdds_quoted in Hq as [stored Hst].
    exists stored. split; [done|]. intros o.
    destruct (findBestOdds_largest exact_ltb_irrefl exact_ltb_trans
                _ _ _ Hst o) as [(g & Hg & Hid & Hv) Hub].
    split.
    + apply elem_of_quotes in Hg as (b & Hb & Hg). exists b, g. auto.
    + intros b g' Hb Hg' Hid'. apply exact_ltb_ge, Hub; [|done].
      apply elem_of_quotes. eauto.
  - intros bookmakers id Hq. apply findBestOdds_quoted in Hq as [stored Hst].
    exists stored. split; [done|]. intros o.
    destruct (findBestOdds_largest b64_ltb_irrefl b64_ltb_trans
                _ _ _ Hst o) as [(g & Hg & Hid & Hv) Hub].
    split.
    + apply elem_of_quotes in Hg as (b & Hb & Hg). exists b, g. auto.
    + intros b g' Hb Hg' Hid'.
      assert ((price o (GameOdds g') >? price o stored)%F = false) as Hle.
      { apply Hub; [|done]. apply elem_of_quotes. eauto. }
      split; [done|]. intros Hn Hn'. by apply b64_not_gt_le.
Qed.

Lemma findBestOdds_field_maximum_witness :
  exists stored, findBestOdds specBookmakers !! "e1"%string = Some stored /\
    forall o : outcome,
      (exists b g, b ∈ specBookmakers /\ g ∈ Games b /\
                   ID g = "e1"%string /\
                   price o (GameOdds g) = price o stored) /\
      (forall b g, b ∈ specBookmakers -> g ∈ Games b ->
                   ID g = "e1"%string ->
                   (price o (GameOdds g) <= price o stored)%Q).
Proof.
  apply (proj1 findBestOdds_field_maximum specBookmakers "e1").
  exists (mkBookmaker "A"
            [mkGame "e1" "home" "away" (mkOdds 2.10 3.00 4.00)%Q "t"]),
    (mkGame "e1" "home" "away" (mkOdds 2.10 3.00 4.00)%Q "t").
  split; [apply list_elem_of_here|].
  split; [apply list_elem_of_here|reflexivity].
Defined.

(** ** C2: the percentage and the report *)

(** C2.  For every odds combination, [calculateArbitragePercentage] is
    [1/win + 1/draw + 1/lose], and for every collection of bookmakers
    [findArbitrageOpportunities] reports an event if and only if the
    percentage of the event's best odds is strictly less than 1.  This holds
    in whatever arithmetic the operations are read, exact or binary64. *)
Theorem arbitrage_percentage_and_report {F : Type} `{Float64 F} :
  (forall odds : Odds F,
     calculateArbitragePercentage odds
     = (f1 / Win odds + f1 / Draw odds + f1 / Lose odds)%F) /\
  (forall (bookmakers : list (Bookmaker F)) (id : string),
     (exists opp, opp ∈ findArbitrageOpportunities bookmakers /\
                  oppGameID opp = id) <->
     (exists odds, findBestOdds bookmakers !! id = Some odds /\
                   (calculateArbitragePercentage odds <? f1)%F = true)).
Proof.
  split; [done|]. intros bookmakers id. split.
  - intros (opp & Hin & Hid).
    apply elem_of_findArbitrageOpportunities in Hin as (id' & odds & Hl & Hr).
    apply reportOpportunity_Some in Hr as [Hlt ->]. simpl in Hid. subst id'.
    eauto.
  - intros (odds & Hl & Hlt).
    destruct (reportOpportunity (id, odds)) as [opp|] eqn:Hr.
    + exists opp. split.
      * apply elem_of_findArbitrageOpportunities. eauto.
      * by apply reportOpportunity_Some in Hr as [_ ->].
    + unfold reportOpportunity in Hr. simpl in Hr. by rewrite Hlt in Hr.
Qed.

Lemma arbitrage_percentage_and_report_witness :
  exists opp, opp ∈ findArbitrageOpportunities arbitrageBookmakers /\
              oppGameID opp = "e2"%string.
Proof.
  apply (proj2 (arbitrage_percentage_and_report (F := Q))
           arbitrageBookmakers "e2").
  exists arbitrageOdds. split; by vm_compute.
Defined.

(** Over the rationals the test is [<] on numbers; the odds {3, 4, 5}, with
    percentage [47/60], are reported, and {1.50, 2.00, 3.00}, with
    percentage [3/2], are not. *)
Example report_exact_examples :
  (forall odds : Odds Q,
     (calculateArbitragePercentage odds <? f1)%F = true <->
     (1 / Win odds + 1 / Draw odds + 1 / Lose odds < 1)%Q) /\
  (calculateArbitragePercentage arbitrageOdds == 47 # 60)%Q /\
  findArbitrageOpportunities arbitrageBookmakers = [arbitrageOpportunity] /\
  (calculateArbitragePercentage (mkOdds 1.50 2.00 3.00) == 3 # 2)%Q /\
  findArbitrageOpportunities
    [mkBookmaker "A"
       [mkGame "e3" "home" "away" (mkOdds 1.50 2.00 3.00)%Q "t"]] = [].
Proof.
  split; [intros odds; apply exact_ltb_lt|]. by vm_compute.
Qed.

(** ** C3: the three payouts *)



(** Where the percentage is 0, as for the nonzero prices {-1, 2, 2}, there
    is no quotient: in binary64 [100 / 0] is [+Inf] and so are the three
    payouts.  A total bet near the largest binary64 value overflows as
    well: with the odds {3, 4, 5} and the total bet [1.7e308] the quotient
    and the stakes are [+Inf]. *)
Example payouts_binary64_no_quotient :
  (calculateArbitragePercentage cancellingOdds == 0)%Q /\
  (f100 / calculateArbitragePercentage cancellingOdds64)%F
  = S754_infinity false /\
  (forall o : outcome,
     payout o cancellingOdds64 f100%F = S754_infinity false) /\
  SpecFloat.valid_binary B64.prec B64.emax largeBet64 = true /\
  B64.is_finite largeBet64 = true /\
  calculateStakes arbitrageOdds64 largeBet64
  = (S754_infinity false, S754_infinity false, S754_infinity false).
Proof.
  split; [by vm_compute|]. split; [by vm_compute|].
  split; [intros []; by vm_compute|by vm_compute].
Qed.

(** In binary64 the payouts of ordinary inputs agree to the last bit or
    nearly so: here the odds {2.10, 3.60, 4.30} and the total bet 100. *)
Example payouts_close_binary64 :
  let odds := mkOdds (B64.dec 210 100) (B64.dec 360 100) (B64.dec 430 100) in
  (calculateArbitragePercentage odds <? f1)%F = true /\
  forall o o' : outcome,
    B64.within_rel_tol (1 # 1000000000)
      (payout o odds f100%F) (payout o' odds f100%F) = true.
Proof. split; [by vm_compute|]. intros [] []; by vm_compute. Qed.


(** ** C4: the stakes and the profit *)

(** C4.  For every odds combination and every total bet, the stake
    [calculateStakes] returns for outcome [o] is
    [(total_bet / (1/win + 1/draw + 1/lose)) / price o].  For every event
    whose best odds pass the test, [findArbitrageOpportunities] prints a
    block with these odds, with the three stakes of that formula for the
    total bet of 100 and with the guaranteed profit
    [100 / (1/win + 1/draw + 1/lose)] minus the sum of the three stakes,
    added in the order win, draw, lose; and every block it prints is of that
    kind.  The equations are those of the code and need no assumption on
    the prices; they hold for any reading of the float64 operations.  For
    the odds {3, 4, 5} the stakes are 2000/47, 1500/47 and 1200/47 and the
    profit is 1300/47, exactly over the rationals and to the last digits in
    binary64. *)
Theorem stakes_and_profit_formulas :
  (forall (F : Type) (ops : Float64 F) (odds : Odds F) (totalBet : F)
          (o : outcome),
     stake o (calculateStakes odds totalBet)
     = (totalBet / (f1 / Win odds + f1 / Draw odds + f1 / Lose odds)
        / price o odds)%F) /\
  (forall (F : Type) (ops : Float64 F) (bookmakers : list (Bookmaker F))
          (id : string) (odds : Odds F),
     findBestOdds bookmakers !! id = Some odds ->
     (f1 / Win odds + f1 / Draw odds + f1 / Lose odds <? f1)%F = true ->
     exists opp : Opportunity F,
       opp ∈ findArbitrageOpportunities bookmakers /\
       oppGameID opp = id /\ oppOdds opp = odds /\
       let a := (f1 / Win odds + f1 / Draw odds + f1 / Lose odds)%F in
       oppWinStake opp = (f100 / a / Win odds)%F /\
       oppDrawStake opp = (f100 / a / Draw odds)%F /\
       oppLoseStake opp = (f100 / a / Lose odds)%F /\
       oppGuaranteedProfit opp
       = (f100 / a
          - (f100 / a / Win odds + f100 / a / Draw odds
             + f100 / a / Lose odds))%F) /\
  (forall (F : Type) (ops : Float64 F) (bookmakers : list (Bookmaker F))
          (opp : Opportunity F),
     opp ∈ findArbitrageOpportunities bookmakers ->
     let odds := oppOdds opp in
     let a := (f1 / Win odds + f1 / Draw odds + f1 / Lose odds)%F in
     findBestOdds bookmakers !! oppGameID opp = Some odds /\
     (a <? f1)%F = true /\
     oppWinStake opp = (f100 / a / Win odds)%F /\
     oppDrawStake opp = (f100 / a / Draw odds)%F /\
     oppLoseStake opp = (f100 / a / Lose odds)%F /\
     oppGuaranteedProfit opp
     = (f100 / a
        - (oppWinStake opp + oppDrawStake opp + oppLoseStake opp))%F) /\
  (exists opp : Opportunity Q,
     opp ∈ findArbitrageOpportunities arbitrageBookmakers /\
     (oppWinStake opp == 2000 # 47)%Q /\
     (oppDrawStake opp == 1500 # 47)%Q /\
     (oppLoseStake opp == 1200 # 47)%Q /\
     (oppGuaranteedProfit opp == 1300 # 47)%Q) /\
  (exists opp : Opportunity spec_float,
     opp ∈ findArbitrageOpportunities arbitrageBookmakers64 /\
     B64.within_rel_tol (1 # 10 ^ 15) (oppWinStake opp) (B64.dec 2000 47)
     = true /\
     B64.within_rel_tol (1 # 10 ^ 15) (oppDrawStake opp) (B64.dec 1500 47)
     = true /\
     B64.within_rel_tol (1 # 10 ^ 15) (oppLoseStake opp) (B64.dec 1200 47)
     = true /\
     B64.within_rel_tol (1 # 10 ^ 13) (oppGuaranteedProfit opp)
       (B64.dec 1300 47) = true).
Proof.
  split; [|split; [|split; [|split]]].
  - intros F ops odds totalBet o. apply stake_calculateStakes.
  - intros F ops bookmakers id odds Hl Hlt.
    eexists. split.
    + apply elem_of_findArbitrageOpportunities. exists id, odds.
      split; [done|]. by apply reportOpportunity_Some.
    + by repeat split.
  - intros F ops bookmakers opp
      (id & odds & Hl & Hr)%elem_of_findArbitrageOpportunities.
    apply reportOpportunity_Some in Hr as [Hlt ->]. by repeat split.
  - exists arbitrageOpportunity. split; [|by vm_compute].
    apply elem_of_findArbitrageOpportunities.
    exists "e2"%string, arbitrageOdds. split; by vm_compute.
  - eexists. split.
    + apply elem_of_findArbitrageOpportunities.
      exists "e2"%string, arbitrageOdds64. split; [by vm_compute|].
      by apply reportOpportunity_Some.
    + by vm_compute.
Qed.

Lemma stakes_and_profit_formulas_witness :
  exists opp : Opportunity Q,
    opp ∈ findArbitrageOpportunities arbitrageBookmakers /\
    oppGameID opp = "e2"%string /\ oppOdds opp = arbitrageOdds /\
    let a := (f1 / Win arbitrageOdds + f1 / Draw arbitrageOdds
              + f1 / Lose arbitrageOdds)%F in
    oppWinStake opp = (f100 / a / Win arbitrageOdds)%F /\
    oppDrawStake opp = (f100 / a / Draw arbitrageOdds)%F /\
    oppLoseStake opp = (f100 / a / Lose arbitrageOdds)%F /\
    oppGuaranteedProfit opp
    = (f100 / a
       - (f100 / a / Win arbitrageOdds + f100 / a / Draw arbitrageOdds
          + f100 / a / Lose arbitrageOdds))%F.
Proof.
  apply (proj1 (proj2 stakes_and_profit_formulas) Q Exact.ops
           arbitrageBookmakers "e2" arbitrageOdds); by vm_compute.
Defined.

(** ** C5: a price of zero *)

(** C5, as the code has it.  For every odds combination in which some field
    is a zero (of either sign), nothing is rejected:
    [calculateArbitragePercentage] returns an infinity or NaN, and
    [calculateStakes] returns NaN as the stake of every zero-priced outcome.
    If moreover no field carries a sign bit (no negative price, no negative
    zero), the percentage is [+Inf] or NaN, the test [< 1] fails and
    [findArbitrageOpportunities] computes no stake for the combination. *)
Theorem zero_price_propagates (odds : Odds spec_float) :
  B64.is_zero (Win odds) || B64.is_zero (Draw odds)
    || B64.is_zero (Lose odds) = true ->
  B64.is_inf_or_nan (calculateArbitragePercentage odds) = true /\
  (forall (totalBet : spec_float) (o : outcome),
     B64.is_zero (price o odds) = true ->
     stake o (calculateStakes odds totalBet) = S754_nan) /\
  (B64.sign_bit (Win odds) = false -> B64.sign_bit (Draw odds) = false ->
   B64.sign_bit (Lose odds) = false ->
   (calculateArbitragePercentage odds <? f1)%F = false /\
   forall id : string, reportOpportunity (id, odds) = None).
Proof.
  intros Hz. pose proof (b64_percentage_zero_price odds Hz) as Hinf.
  split; [done|]. split.
  - intros totalBet o Ho.
    rewrite stake_calculateStakes. by apply b64_stake_zero_price.
  - intros Hw Hd Hl.
    pose proof (b64_percentage_zero_price_pinf odds Hz Hw Hd Hl) as Hp.
    pose proof (b64_pinf_not_lt _ (f1)%F Hp) as Hlt.
    split; [done|]. intros id.
    destruct (reportOpportunity (id, odds)) as [opp|] eqn:Hr; [|done].
    apply reportOpportunity_Some in Hr as [Hlt' _]. congruence.
Qed.

Lemma zero_price_propagates_witness :
  B64.is_inf_or_nan (calculateArbitragePercentage zeroWinOdds) = true /\
  (forall (totalBet : spec_float) (o : outcome),
     B64.is_zero (price o zeroWinOdds) = true ->
     stake o (calculateStakes zeroWinOdds totalBet) = S754_nan) /\
  (B64.sign_bit (Win zeroWinOdds) = false ->
   B64.sign_bit (Draw zeroWinOdds) = false ->
   B64.sign_bit (Lose zeroWinOdds) = false ->
   (calculateArbitragePercentage zeroWinOdds <? f1)%F = false /\
   forall id : string, reportOpportunity (id, zeroWinOdds) = None).
Proof.
  apply (zero_price_propagates zeroWinOdds). reflexivity.
Defined.

(** C5 fails on the code.  For {0, 2, 3} the percentage is [+Inf], returned
    as an ordinary result, and [calculateStakes] returns the stakes
    (NaN, 0, 0).  For {-0, 2, 3} the percentage is [-Inf], which is below 1:
    [findArbitrageOpportunities] computes the stakes and reports the event
    with NaN as win stake and as profit. *)
Lemma zero_price_counterexample :
  B64.is_zero (Win zeroWinOdds) = true /\
  calculateArbitragePercentage zeroWinOdds = S754_infinity false /\
  calculateStakes zeroWinOdds f100%F
  = (S754_nan, S754_zero false, S754_zero false) /\
  B64.is_zero (Win negZeroWinOdds) = true /\
  calculateArbitragePercentage negZeroWinOdds = S754_infinity true /\
  findArbitrageOpportunities negZeroBookmakers
  = [ {| oppGameID := "e1"; oppOdds := negZeroWinOdds;
         oppWinStake := S754_nan;
         oppDrawStake := S754_zero true;
         oppLoseStake := S754_zero true;
         oppGuaranteedProfit := S754_nan |} ].
Proof. vm_compute. repeat split. Qed.

(** ** C6: the odds {2.10, 3.50, 4.20} *)

(** C6, as the code has it.  For the odds {2.10, 3.50, 4.20} the arbitrage
    percentage is exactly 1 ([10/21 + 6/21 + 5/21]) in exact arithmetic, and
    the binary64 computation yields exactly 1.0 as well.  Neither is strictly
    less than 1, so the event is not reported: for the two bookmakers of the
    example, whose best odds these are, [findArbitrageOpportunities] reports
    nothing. *)
Theorem spec_example_percentage_is_one :
  (calculateArbitragePercentage specBestOdds == 1)%Q /\
  calculateArbitragePercentage specBestOdds64 = f1%F /\
  (calculateArbitragePercentage specBestOdds <? f1)%F = false /\
  (calculateArbitragePercentage specBestOdds64 <? f1)%F = false /\
  findBestOdds specBookmakers !! "e1" = Some specBestOdds /\
  findBestOdds specBookmakers64 !! "e1" = Some specBestOdds64 /\
  findArbitrageOpportunities specBookmakers = [] /\
  findArbitrageOpportunities specBookmakers64 = [].
Proof. vm_compute. repeat split. Qed.

(** C6 fails on the code: the percentage of {2.10, 3.50, 4.20} is not within
    0.00005 of 0.9324 and is not strictly less than 1, in exact arithmetic
    and in binary64. *)
Lemma spec_example_percentage_counterexample :
  ~ (Qabs (calculateArbitragePercentage specBestOdds - 0.9324) <= 0.00005)%Q /\
  ~ (calculateArbitragePercentage specBestOdds < 1)%Q /\
  (calculateArbitragePercentage specBestOdds64 <? f1)%F = false /\
  B64.within_rel_tol 0.0001
    (calculateArbitragePercentage specBestOdds64) (B64.dec 9324 10000) = false.
Proof.
  split; [|split; [|split]]; try (by vm_compute).
Qed.

(** ** C7: rounding a non-negative value *)

(** C7.  For every non-negative value whose product with 100 fits the
    integer range, [roundToTwoDecimal] returns [floor(value * 100) / 100]:
    the scaled value is truncated, not rounded to nearest ([2.999] gives
    [2.99], not [3.00]) and not rounded half to even ([0.135] gives [0.13],
    not [0.14]).  Over the rationals the product is exact and fits when it
    is below [2^63].  In binary64 the product is the rounded product that
    the code computes, it fits when [int(..)] is defined on it, and the
    floor is that of the rational the product stands for. *)
Theorem roundToTwoDecimal_nonneg_floor :
  (forall value : Q,
     (0 <= value)%Q -> (value * 100 < inject_Z (2 ^ 63))%Q ->
     roundToTwoDecimal value
     = Some (inject_Z (Qfloor (value * 100)) / 100)%Q) /\
  (forall (value : spec_float) (n : Z),
     SFleb (f_of_int 0) value = true ->
     f_to_int (value * f100)%F = Some n ->
     roundToTwoDecimal value
     = Some (f_of_int (Qfloor (B64.to_Q (value * f100)%F)) / f100)%F) /\
  roundToTwoDecimal 2.999%Q = Some 2.99%Q /\
  roundToTwoDecimal 0.135%Q = Some 0.13%Q /\
  roundToTwoDecimal (B64.dec 2999 1000) = Some (B64.dec 299 100) /\
  roundToTwoDecimal (B64.dec 135 1000) = Some (B64.dec 13 100).
Proof.
  split; [|split; [|by vm_compute]].
  - intros value Hv Hmax. unfold roundToTwoDecimal.
    change (f_to_int (value * f100)%F) with (Exact.to_int (value * 100)%Q).
    rewrite exact_to_int_nonneg; [done| |done].
    apply Qmult_le_0_compat; [done|]. by unfold Qle.
  - intros value n Hv Hn. unfold roundToTwoDecimal. rewrite Hn.
    do 3 f_equal. apply b64_to_int_not_negative; [|done].
    by apply b64_scaled_not_negative.
Qed.

Lemma roundToTwoDecimal_nonneg_floor_witness :
  roundToTwoDecimal 1.239%Q
  = Some (inject_Z (Qfloor (1.239 * 100)) / 100)%Q /\
  roundToTwoDecimal (B64.dec 1239 1000)
  = Some (f_of_int (Qfloor (B64.to_Q (B64.dec 1239 1000 * f100)%F))
          / f100)%F.
Proof.
  split.
  - apply (proj1 roundToTwoDecimal_nonneg_floor 1.239%Q).
    + unfold Qle. simpl. lia.
    + unfold Qlt. simpl. lia.
  - apply (proj1 (proj2 roundToTwoDecimal_nonneg_floor)
             (B64.dec 1239 1000) 123); by vm_compute.
Defined.

(** The floor is taken of the binary64 product, which is itself rounded:
    the value nearest to 0.29 gives 0.28, its product with 100 being just
    below 29. *)
Example roundToTwoDecimal_binary64_product :
  roundToTwoDecimal (B64.dec 29 100) = Some (B64.dec 28 100) /\
  ((B64.dec 29 100 * f100)%F <? f_of_int 29)%F = true.
Proof. by vm_compute. Qed.

(** ** C8: the stakes add up to the total bet *)

(** C8, as the code has it.  For every odds combination with all three
    prices nonzero and a nonzero arbitrage percentage (as it is whenever the
    three prices are positive), and every total bet [t], the three stakes of
    [calculateStakes] add up to [t] in exact arithmetic, and the profit
    [t / a - total_stake] equals [t * (1/a - 1)]; so does the profit of
    every opportunity that [findArbitrageOpportunities] reports for such
    odds, with [t = 100].  For the odds of the specification's example the
    stakes add up to 100, whereas the stakes the specification prints for
    it, 51.02, 30.61 and 25.51, add up to 107.14. *)
Theorem stakes_sum_to_total_bet (odds : Odds Q) (totalBet : Q) :
  ~ (Win odds == 0)%Q -> ~ (Draw odds == 0)%Q -> ~ (Lose odds == 0)%Q ->
  ~ (calculateArbitragePercentage odds == 0)%Q ->
  (totalStake (calculateStakes odds totalBet) == totalBet)%Q /\
  (totalBet / calculateArbitragePercentage odds
   - totalStake (calculateStakes odds totalBet)
   == totalBet * (1 / calculateArbitragePercentage odds - 1))%Q /\
  (forall (bookmakers : list (Bookmaker Q)) (opp : Opportunity Q),
     opp ∈ findArbitrageOpportunities bookmakers -> oppOdds opp = odds ->
     (oppGuaranteedProfit opp
      == 100 * (1 / calculateArbitragePercentage odds - 1))%Q) /\
  (totalStake (calculateStakes specBestOdds 100) == 100)%Q /\
  (51.02 + 30.61 + 25.51 == 107.14)%Q /\ ~ (107.14 == 100)%Q.
Proof.
  intros Hw Hd Hl Ha.
  split; [by apply exact_totalStake|].
  split; [by apply exact_profit|].
  split; [|by vm_compute].
  intros bookmakers opp Hin <-.
  destruct (elem_of_findArbitrageOpportunities_inv _ _ Hin) as [_ ->].
  by apply (exact_profit (oppOdds opp) 100%Q).
Qed.

Lemma stakes_sum_to_total_bet_witness :
  (totalStake (calculateStakes arbitrageOdds 100) == 100)%Q /\
  (100 / calculateArbitragePercentage arbitrageOdds
   - totalStake (calculateStakes arbitrageOdds 100)
   == 100 * (1 / calculateArbitragePercentage arbitrageOdds - 1))%Q /\
  (forall (bookmakers : list (Bookmaker Q)) (opp : Opportunity Q),
     opp ∈ findArbitrageOpportunities bookmakers ->
     oppOdds opp = arbitrageOdds ->
     (oppGuaranteedProfit opp
      == 100 * (1 / calculateArbitragePercentage arbitrageOdds - 1))%Q) /\
  (totalStake (calculateStakes specBestOdds 100) == 100)%Q /\
  (51.02 + 30.61 + 25.51 == 107.14)%Q /\ ~ (107.14 == 100)%Q.
Proof.
  apply (stakes_sum_to_total_bet arbitrageOdds 100%Q); by vm_compute.
Defined.

(** With positive prices the percentage is positive, hence nonzero. *)
Lemma stakes_sum_positive_prices (odds : Odds Q) (totalBet : Q) :
  (0 < Win odds)%Q -> (0 < Draw odds)%Q -> (0 < Lose odds)%Q ->
  (totalStake (calculateStakes odds totalBet) == totalBet)%Q.
Proof.
  intros Hw Hd Hl.
  pose proof (exact_percentage_pos odds Hw Hd Hl) as Ha.
  apply exact_totalStake; intros Hz;
    [rewrite Hz in Hw|rewrite Hz in Hd|rewrite Hz in Hl|rewrite Hz in Ha];
    by eapply Qlt_irrefl.
Qed.

(** C8 fails for the nonzero prices {-1, 2, 2}, whose reciprocals add up to
    0.  No value of [t / 0] makes the three stakes add up to [t = 100]: with
    Rocq's [t / 0 = 0] they add up to 0, and in binary64 the stakes are
    [-Inf], [+Inf], [+Inf] and their sum is NaN. *)
Lemma stakes_sum_counterexample :
  ~ (Win cancellingOdds == 0)%Q /\ ~ (Draw cancellingOdds == 0)%Q /\
  ~ (Lose cancellingOdds == 0)%Q /\
  (calculateArbitragePercentage cancellingOdds == 0)%Q /\
  ~ (totalStake (calculateStakes cancellingOdds 100) == 100)%Q /\
  calculateArbitragePercentage cancellingOdds64 = S754_zero false /\
  calculateStakes cancellingOdds64 f100%F
  = (S754_infinity true, S754_infinity false, S754_infinity false) /\
  totalStake (calculateStakes cancellingOdds64 f100%F) = S754_nan.
Proof. repeat split; by vm_compute. Qed.

(** ** C9: the keys of the map are the quoted ids *)



(** One bookmaker quoting the same id twice, and a second bookmaker quoting
    it again and quoting nothing else: one entry, the per-field maximum. *)
Example findBestOdds_duplicates :
  let g w d l := mkGame "e1" "home" "away" (mkOdds w d l)%Q "t" in
  let bookmakers :=
    [ mkBookmaker "A" [g 2 3 4; g 3 2 4]%Q; mkBookmaker "B" [g 1 1 5]%Q;
      mkBookmaker "C" [] ] in
  map_to_list (findBestOdds bookmakers) = [("e1"%string, mkOdds 3 3 5)%Q].
Proof. by vm_compute. Qed.

(** ** C10: rounding a negative value *)

(** C10.  For every strictly negative value whose product with 100 fits the
    integer range, [roundToTwoDecimal] rounds toward zero: it returns
    [ceil(value * 100) / 100], not [floor(value * 100) / 100].  So [-1.237]
    is mapped to [-1.23] and not to [-1.24].  Over the rationals the product
    is exact and fits when it is at least [-2^63]; in binary64 it is the
    rounded product, it fits when [int(..)] is defined on it, and the ceiling
    is that of the rational the product stands for. *)
Theorem roundToTwoDecimal_neg_ceiling :
  (forall value : Q,
     (value < 0)%Q -> (inject_Z (- 2 ^ 63) <= value * 100)%Q ->
     roundToTwoDecimal value
     = Some (inject_Z (Qceiling (value * 100)) / 100)%Q) /\
  (forall (value : spec_float) (n : Z),
     (value <? f_of_int 0)%F = true ->
     f_to_int (value * f100)%F = Some n ->
     roundToTwoDecimal value
     = Some (f_of_int (Qceiling (B64.to_Q (value * f100)%F)) / f100)%F) /\
  roundToTwoDecimal (-1.237)%Q = Some (-1.23)%Q /\
  (inject_Z (Qfloor (-1.237 * 100)) / 100 == -1.24)%Q /\
  ~ (-1.23 == -1.24)%Q /\
  roundToTwoDecimal (B64.dec (-1237) 1000) = Some (B64.dec (-123) 100).
Proof.
  split; [|split; [|by vm_compute]].
  - intros value Hv Hmin. unfold roundToTwoDecimal.
    change (f_to_int (value * f100)%F) with (Exact.to_int (value * 100)%Q).
    rewrite exact_to_int_neg; [done| |done].
    destruct value as [n d]. unfold Qlt in *. simpl in *. lia.
  - intros value n Hv Hn. unfold roundToTwoDecimal. rewrite Hn.
    do 3 f_equal. apply b64_to_int_ceiling; [|done].
    change (B64.sign_bit (value * f100)%F = true).
    rewrite (b64_scaled_sign value n Hn). by apply b64_lt_zero_sign.
Qed.

Lemma roundToTwoDecimal_neg_ceiling_witness :
  roundToTwoDecimal (-0.019)%Q
  = Some (inject_Z (Qceiling (-0.019 * 100)) / 100)%Q /\
  roundToTwoDecimal (B64.dec (-19) 1000)
  = Some (f_of_int (Qceiling (B64.to_Q (B64.dec (-19) 1000 * f100)%F))
          / f100)%F.
Proof.
  split.
  - apply (proj1 roundToTwoDecimal_neg_ceiling (-0.019)%Q).
    + unfold Qlt. simpl. lia.
    + unfold Qle. simpl. lia.
  - apply (proj1 (proj2 roundToTwoDecimal_neg_ceiling)
             (B64.dec (-19) 1000) (-1)); by vm_compute.
Defined.

(** * Further properties of the code *)

(** ** [findBestOdds]: events quoted once *)

Section QuotedOnce.
Context {F : Type} `{Float64 F}.
Local Open Scope f64_scope.
Implicit Types (best : gmap string (Odds F)) (g : Game F)
  (qs : list (Game F)) (bks : list (Bookmaker F)) (id : string).

Lemma foldl_keepBest_other best qs id :
  (forall g, g ∈ qs -> ID g <> id) ->
  foldl keepBest best qs !! id = best !! id.
Proof.
  revert best. induction qs as [|g qs IH]; intros best Hne; [done|].
  simpl. rewrite IH.
  - apply keepBest_other, Hne, list_elem_of_here.
  - intros g' Hg'. apply Hne. by apply list_elem_of_further.
Qed.

Lemma foldl_keepBest_once (before after : list (Game F)) g :
  (forall g', g' ∈ before ++ after -> ID g' <> ID g) ->
  foldl keepBest ∅ (before ++ g :: after) !! ID g = Some (GameOdds g).
Proof.
  intros Hne. rewrite foldl_app. simpl.
  rewrite foldl_keepBest_other.
  - rewrite keepBest_absent; [apply lookup_insert_eq|].
    rewrite foldl_keepBest_other; [done|].
    intros g' Hg'. apply Hne, elem_of_app. by left.
  - intros g' Hg'. apply Hne, elem_of_app. by right.
Qed.

Lemma NoDup_ID_split (before after : list (Game F)) g :
  NoDup (ID <$> before ++ g :: after) ->
  forall g', g' ∈ before ++ after -> ID g' <> ID g.
Proof.
  rewrite fmap_app, fmap_cons. intros Hnd g' Hg' Heq.
  apply NoDup_app in Hnd as (_ & Hdisj & Hnd).
  apply NoDup_cons in Hnd as [Hnotin _].
  apply elem_of_app in Hg' as [Hg'|Hg'].
  - apply (Hdisj (ID g')); [by apply list_elem_of_fmap_2|].
    rewrite Heq. apply list_elem_of_here.
  - apply Hnotin. rewrite <- Heq. by apply list_elem_of_fmap_2.
Qed.

Lemma findBestOdds_size_le bks :
  (size (findBestOdds bks) <= length (quotes bks))%nat.
Proof.
  rewrite <- size_dom, findBestOdds_dom.
  rewrite <- (length_fmap ID (quotes bks)).
  generalize (ID <$> quotes bks). intros ids.
  induction ids as [|i ids IH].
  - by rewrite list_to_set_nil, size_empty.
  - rewrite list_to_set_cons, size_union_alt, size_singleton.
    pose proof (subseteq_size
      (list_to_set ids ∖ {[i]} : gset string) (list_to_set ids)
      (subseteq_difference_l _ _ _ (reflexivity _))).
    cbn [length]. lia.
Qed.

End QuotedOnce.

(** ** [findArbitrageOpportunities]: one block per event at most *)

Section Reported.
Context {F : Type} `{Float64 F}.
Local Open Scope f64_scope.
Implicit Types (bks : list (Bookmaker F)) (odds : Odds F)
  (opp : Opportunity F) (id : string).

Lemma reportOpportunity_id id odds opp :
  reportOpportunity (id, odds) = Some opp ->
  oppGameID opp = id /\ oppOdds opp = odds.
Proof. by intros [_ ->]%reportOpportunity_Some. Qed.

Lemma reported_iff bks id :
  (exists opp, opp ∈ findArbitrageOpportunities bks /\ oppGameID opp = id) <->
  (exists odds, findBestOdds bks !! id = Some odds /\
                (calculateArbitragePercentage odds <? f1) = true).
Proof.
  split.
  - intros (opp & (id' & odds & Hl & Hr)%elem_of_findArbitrageOpportunities
              & Hid).
    pose proof (reportOpportunity_id _ _ _ Hr) as [Hid' _].
    apply reportOpportunity_Some in Hr as [Hlt _].
    rewrite Hid' in Hid. subst id'. eauto.
  - intros (odds & Hl & Hlt).
    exists {| oppGameID := id; oppOdds := odds;
              oppWinStake := stake OWin (calculateStakes odds f100);
              oppDrawStake := stake ODraw (calculateStakes odds f100);
              oppLoseStake := stake OLose (calculateStakes odds f100);
              oppGuaranteedProfit :=
                f100 / calculateArbitragePercentage odds
                - totalStake (calculateStakes odds f100) |}.
    split; [|done]. apply elem_of_findArbitrageOpportunities.
    exists id, odds. split; [done|]. by apply reportOpportunity_Some.
Qed.

Lemma omap_reportOpportunity_ids (l : list (string * Odds F)) opp :
  opp ∈ omap reportOpportunity l -> oppGameID opp ∈ l.*1.
Proof.
  intros ([id odds] & Hin & Hr)%list_elem_of_omap.
  apply reportOpportunity_id in Hr as [<- _].
  by apply (list_elem_of_fmap_2 fst) in Hin.
Qed.

Lemma omap_reportOpportunity_NoDup (l : list (string * Odds F)) :
  NoDup l.*1 -> NoDup (oppGameID <$> omap reportOpportunity l).
Proof.
  induction l as [|[id odds] l IH]; [constructor|].
  rewrite fmap_cons. intros [Hnotin Hnd]%NoDup_cons. cbn [omap list_omap].
  destruct (reportOpportunity (id, odds)) as [opp|] eqn:Hr; [|by apply IH].
  rewrite fmap_cons. apply NoDup_cons. split; [|by apply IH].
  apply reportOpportunity_id in Hr as [-> _].
  intros (opp' & Hid & Hin)%list_elem_of_fmap. apply Hnotin.
  cbn [fst]. rewrite Hid. by apply omap_reportOpportunity_ids.
Qed.

Lemma length_omap_le {A B : Type} (f : A -> option B) (l : list A) :
  (length (omap f l) <= length l)%nat.
Proof.
  induction l as [|x l IH]; [done|]. cbn [omap list_omap length].
  destruct (f x); cbn [length]; lia.
Qed.

End Reported.

(** X1.  An event quoted exactly once, by one game of one bookmaker, passes
    through [findBestOdds] unchanged: its entry is the quote's own odds, and
    [findArbitrageOpportunities] reports it if and only if the percentage of
    that quote is below 1. *)
Theorem findBestOdds_quoted_once {F : Type} `{Float64 F}
    (bookmakers : list (Bookmaker F)) (before after : list (Game F))
    (g : Game F) :
  quotes bookmakers = before ++ g :: after ->
  (forall g', g' ∈ before ++ after -> ID g' <> ID g) ->
  findBestOdds bookmakers !! ID g = Some (GameOdds g) /\
  ((exists opp, opp ∈ findArbitrageOpportunities bookmakers /\
                oppGameID opp = ID g) <->
   (calculateArbitragePercentage (GameOdds g) <? f1)%F = true).
Proof.
  intros Hq Hne.
  assert (findBestOdds bookmakers !! ID g = Some (GameOdds g)) as Hl.
  { rewrite findBestOdds_quotes, Hq. by apply foldl_keepBest_once. }
  split; [done|]. rewrite reported_iff. split.
  - intros (odds & Hl' & Hlt). rewrite Hl in Hl'. by injection Hl' as <-.
  - intros Hlt. eauto.
Qed.

Lemma findBestOdds_quoted_once_witness :
  findBestOdds arbitrageBookmakers !! "e2"%string = Some arbitrageOdds /\
  ((exists opp, opp ∈ findArbitrageOpportunities arbitrageBookmakers /\
                oppGameID opp = "e2"%string) <->
   (calculateArbitragePercentage arbitrageOdds <? f1)%F = true).
Proof.
  apply (findBestOdds_quoted_once arbitrageBookmakers [] []
           (mkGame "e2" "home" "away" arbitrageOdds "t")).
  - reflexivity.
  - intros g' Hg'. by apply elem_of_nil in Hg'.
Defined.

(** X2.  When no two quotes carry the same id, as is all but certain for
    the generated data, whose ids are random UUIDs, nothing is merged: the
    map has as many
    entries as there are quotes, the entry of every quote is the quote's own
    odds, and the events reported are exactly the ids of the quotes whose
    own percentage is below 1. *)
Theorem findBestOdds_distinct_ids {F : Type} `{Float64 F}
    (bookmakers : list (Bookmaker F)) :
  NoDup (ID <$> quotes bookmakers) ->
  size (findBestOdds bookmakers) = length (quotes bookmakers) /\
  (forall g, g ∈ quotes bookmakers ->
     findBestOdds bookmakers !! ID g = Some (GameOdds g)) /\
  (forall id,
     (exists opp, opp ∈ findArbitrageOpportunities bookmakers /\
                  oppGameID opp = id) <->
     (exists g, g ∈ quotes bookmakers /\ ID g = id /\
                (calculateArbitragePercentage (GameOdds g) <? f1)%F = true)).
Proof.
  intros Hnd.
  assert (forall g, g ∈ quotes bookmakers ->
            findBestOdds bookmakers !! ID g = Some (GameOdds g)) as Hl.
  { intros g (before & after & Hq)%list_elem_of_split.
    rewrite findBestOdds_quotes, Hq. apply foldl_keepBest_once.
    apply NoDup_ID_split. by rewrite <- Hq. }
  split; [|split; [done|]].
  - rewrite <- size_dom, findBestOdds_dom, size_list_to_set by done.
    apply length_fmap.
  - intros id. rewrite reported_iff. split.
    + intros (odds & Hlo & Hlt).
      assert (id ∈ dom (findBestOdds bookmakers)) as Hin
        by (apply elem_of_dom; eauto).
      rewrite findBestOdds_dom, elem_of_list_to_set, list_elem_of_fmap in Hin.
      destruct Hin as (g & -> & Hg). exists g.
      rewrite (Hl g Hg) in Hlo. by injection Hlo as <-.
    + intros (g & Hg & <- & Hlt). exists (GameOdds g). auto.
Qed.

Lemma findBestOdds_distinct_ids_witness :
  size (findBestOdds arbitrageBookmakers)
  = length (quotes arbitrageBookmakers) /\
  (forall g, g ∈ quotes arbitrageBookmakers ->
     findBestOdds arbitrageBookmakers !! ID g = Some (GameOdds g)) /\
  (forall id,
     (exists opp, opp ∈ findArbitrageOpportunities arbitrageBookmakers /\
                  oppGameID opp = id) <->
     (exists g, g ∈ quotes arbitrageBookmakers /\ ID g = id /\
                (calculateArbitragePercentage (GameOdds g) <? f1)%F = true)).
Proof.
  apply (findBestOdds_distinct_ids arbitrageBookmakers).
  simpl. apply NoDup_singleton.
Defined.

(** X3.  [findArbitrageOpportunities] prints at most one block per event:
    the ids of the blocks are pairwise distinct, every block shows the best
    odds stored for its id, and there are no more blocks than entries in the
    map, which has no more entries than there are quotes. *)
Theorem findArbitrageOpportunities_once_per_event {F : Type} `{Float64 F}
    (bookmakers : list (Bookmaker F)) :
  NoDup (oppGameID <$> findArbitrageOpportunities bookmakers) /\
  (forall opp, opp ∈ findArbitrageOpportunities bookmakers ->
     findBestOdds bookmakers !! oppGameID opp = Some (oppOdds opp)) /\
  (length (findArbitrageOpportunities bookmakers)
   <= size (findBestOdds bookmakers) <= length (quotes bookmakers))%nat.
Proof.
  split; [|split; [|split]].
  - apply omap_reportOpportunity_NoDup, NoDup_fst_map_to_list.
  - intros opp (id & odds & Hl & Hr)%elem_of_findArbitrageOpportunities.
    by apply reportOpportunity_id in Hr as [-> ->].
  - unfold findArbitrageOpportunities.
    rewrite <- length_map_to_list. apply length_omap_le.
  - apply findBestOdds_size_le.
Qed.

(** ** [findBestOdds]: only the set of quotes matters *)

Section SameQuotes.
Context {F : Type} `{Float64 F}.
Local Open Scope f64_scope.
Implicit Types (g : Game F) (qs : list (Game F))
  (bks : list (Bookmaker F)) (id : string).

Lemma largest_quote_incl qs qs' id (o : outcome) (v v' : F) :
  (forall g, g ∈ qs -> g ∈ qs') ->
  largest_quote qs id o v -> largest_quote qs' id o v' ->
  (v' <? v) = false.
Proof.
  intros Hincl [(g & Hg & Hid & <-) _] [_ Hub]. by apply Hub; [apply Hincl|].
Qed.

Lemma quotes_app bks bks' : quotes (bks ++ bks') = quotes bks ++ quotes bks'.
Proof. unfold quotes. by rewrite map_app, concat_app. Qed.

Lemma quotes_Permutation bks bks' :
  bks ≡ₚ bks' -> forall g, g ∈ quotes bks <-> g ∈ quotes bks'.
Proof.
  intros Hperm g. rewrite !elem_of_quotes.
  split; intros (b & Hb & Hg); exists b; split; try done.
  - by rewrite <- Hperm.
  - by rewrite Hperm.
Qed.

Lemma findBestOdds_dom_same bks bks' :
  (forall g, g ∈ quotes bks <-> g ∈ quotes bks') ->
  dom (findBestOdds bks) = dom (findBestOdds bks').
Proof.
  intros Hsame. rewrite !findBestOdds_dom. apply set_eq. intros id.
  rewrite !elem_of_list_to_set, !list_elem_of_fmap.
  split; intros (g & -> & Hg); exists g; split; try done; by apply Hsame.
Qed.

End SameQuotes.

Section B64Equal.
Implicit Types (x y : spec_float).

Lemma b64_neither_less_eq x y :
  B64.is_nan x = false -> B64.is_nan y = false ->
  f_ltb x y = false -> f_ltb y x = false -> SFeqb x y = true.
Proof.
  simpl. unfold SFltb, SFeqb. rewrite (SFcompare_antisym x y).
  intros Hx Hy. destruct (SFcompare x y) as [[]|] eqn:Hc; simpl; try done.
  by destruct x, y.
Qed.

End B64Equal.

(** X4.  The map of [findBestOdds] depends only on which quotes there are,
    not on their order nor on how they are grouped into bookmakers (so not
    on the order in which [generateBookmakers] collects the bookmakers from
    its channel): two collections with the same quotes give the same keys,
    and for every key and outcome neither stored price is less than the
    other, which makes them equal as numbers ([==] of IEEE, under which the
    two zeros are equal) unless one is a NaN. *)
Theorem findBestOdds_same_quotes
    (bookmakers bookmakers' : list (Bookmaker spec_float)) :
  (forall g, g ∈ quotes bookmakers <-> g ∈ quotes bookmakers') ->
  dom (findBestOdds bookmakers) = dom (findBestOdds bookmakers') /\
  forall (id : string) (stored stored' : Odds spec_float),
    findBestOdds bookmakers !! id = Some stored ->
    findBestOdds bookmakers' !! id = Some stored' ->
    forall o : outcome,
      (price o stored <? price o stored')%F = false /\
      (price o stored' <? price o stored)%F = false /\
      (B64.is_nan (price o stored) = false ->
       B64.is_nan (price o stored') = false ->
       SFeqb (price o stored) (price o stored') = true).
Proof.
  intros Hsame. split; [by apply findBestOdds_dom_same|].
  intros id stored stored' Hl Hl' o.
  pose proof (findBestOdds_largest b64_ltb_irrefl b64_ltb_trans
                _ _ _ Hl o) as Hbest.
  pose proof (findBestOdds_largest b64_ltb_irrefl b64_ltb_trans
                _ _ _ Hl' o) as Hbest'.
  assert ((price o stored <? price o stored')%F = false) as Hle.
  { eapply largest_quote_incl; [|exact Hbest'|exact Hbest].
    intros g. apply Hsame. }
  assert ((price o stored' <? price o stored)%F = false) as Hge.
  { eapply largest_quote_incl; [|exact Hbest|exact Hbest'].
    intros g. apply Hsame. }
  split; [done|]. split; [done|]. intros Hn Hn'.
  by apply b64_neither_less_eq.
Qed.

Lemma findBestOdds_same_quotes_witness :
  dom (findBestOdds specBookmakers64)
  = dom (findBestOdds (reverse specBookmakers64)) /\
  forall (id : string) (stored stored' : Odds spec_float),
    findBestOdds specBookmakers64 !! id = Some stored ->
    findBestOdds (reverse specBookmakers64) !! id = Some stored' ->
    forall o : outcome,
      (price o stored <? price o stored')%F = false /\
      (price o stored' <? price o stored)%F = false /\
      (B64.is_nan (price o stored) = false ->
       B64.is_nan (price o stored') = false ->
       SFeqb (price o stored) (price o stored') = true).
Proof.
  apply (findBestOdds_same_quotes specBookmakers64
           (reverse specBookmakers64)).
  apply quotes_Permutation. symmetry. apply reverse_Permutation.
Defined.

(** X5.  More bookmakers never lower a stored price: an event that has an
    entry keeps one when further bookmakers are appended, and for every
    outcome the new stored price is not less than the old one (it is [>=]
    the old one unless one of them is a NaN). *)
Theorem findBestOdds_more_bookmakers
    (bookmakers more : list (Bookmaker spec_float)) (id : string)
    (stored : Odds spec_float) :
  findBestOdds bookmakers !! id = Some stored ->
  exists stored', findBestOdds (bookmakers ++ more) !! id = Some stored' /\
    forall o : outcome,
      (price o stored' <? price o stored)%F = false /\
      (B64.is_nan (price o stored) = false ->
       B64.is_nan (price o stored') = false ->
       SFleb (price o stored) (price o stored') = true).
Proof.
  intros Hl.
  assert (is_Some (findBestOdds (bookmakers ++ more) !! id)) as [stored' Hl'].
  { apply elem_of_dom. rewrite findBestOdds_dom, quotes_app, fmap_app,
      list_to_set_app_L, elem_of_union. left.
    rewrite <- findBestOdds_dom. apply elem_of_dom. eauto. }
  exists stored'. split; [done|]. intros o.
  pose proof (findBestOdds_largest b64_ltb_irrefl b64_ltb_trans
                _ _ _ Hl o) as Hbest.
  pose proof (findBestOdds_largest b64_ltb_irrefl b64_ltb_trans
                _ _ _ Hl' o) as Hbest'.
  assert ((price o stored' <? price o stored)%F = false) as Hge.
  { eapply largest_quote_incl; [|exact Hbest|exact Hbest'].
    intros g Hg. rewrite quotes_app, elem_of_app. by left. }
  split; [done|]. intros Hn Hn'. by apply b64_not_gt_le.
Qed.

Lemma findBestOdds_more_bookmakers_witness :
  exists stored',
    findBestOdds (take 1 specBookmakers64 ++ drop 1 specBookmakers64)
      !! "e1"%string = Some stored' /\
    forall o : outcome,
      (price o stored'
       <? price o (mkOdds (B64.dec 210 100) (B64.dec 300 100)
                     (B64.dec 400 100)))%F = false /\
      (B64.is_nan (price o (mkOdds (B64.dec 210 100) (B64.dec 300 100)
                              (B64.dec 400 100))) = false ->
       B64.is_nan (price o stored') = false ->
       SFleb (price o (mkOdds (B64.dec 210 100) (B64.dec 300 100)
                         (B64.dec 400 100)))
             (price o stored') = true).
Proof.
  apply (findBestOdds_more_bookmakers (take 1 specBookmakers64)
           (drop 1 specBookmakers64) "e1").
  vm_compute. reflexivity.
Defined.

(** ** [main]: the file and the analysis *)

Section MainFacts.
Context {F W E B : Type} `{Float64 F} `{Env F W E B}.
Implicit Types (generated : list (Bookmaker F)) (w : W).

Lemma main_existing generated w :
  statIsNotExist filename w = false ->
  main generated w
  = match readBookmakersFromFile filename w with
    | (_, Some err) => (w, [ErrorReading err])
    | (bookmakers, None) =>
        (w, Found <$> findArbitrageOpportunities bookmakers)
    end.
Proof. intros Hst. unfold main. by rewrite Hst. Qed.

Lemma main_missing generated w :
  statIsNotExist filename w = true ->
  main generated w
  = match writeBookmakersToFile generated filename w with
    | (w', Some err) => (w', [ErrorWriting err])
    | (w', None) => (w', Found <$> findArbitrageOpportunities generated)
    end.
Proof. intros Hst. unfold main. by rewrite Hst. Qed.

End MainFacts.

(** X6.  [main] never overwrites an existing file: unless [os.Stat] reports
    that [bookmakers.json] does not exist, the file system is left as it
    was and what is printed does not depend on what [generateBookmakers]
    would return; it is determined by the contents of the file. *)
Theorem main_keeps_existing_file {F W E B : Type} `{Float64 F}
    `{Env F W E B} (generated generated' : list (Bookmaker F)) (w : W) :
  statIsNotExist filename w = false ->
  fst (main generated w) = w /\
  main generated w = main generated' w.
Proof.
  intros Hst. rewrite !main_existing by done.
  by destruct (readBookmakersFromFile filename w) as [bookmakers [err|]].
Qed.

Lemma main_keeps_existing_file_witness :
  fst (main arbitrageBookmakers ({[filename := specBookmakers]}
         : gmap string (list (Bookmaker Q))))
  = {[filename := specBookmakers]} /\
  main arbitrageBookmakers ({[filename := specBookmakers]}
         : gmap string (list (Bookmaker Q)))
  = main [] ({[filename := specBookmakers]}
         : gmap string (list (Bookmaker Q))).
Proof.
  apply (main_keeps_existing_file arbitrageBookmakers []).
  reflexivity.
Defined.

(** X7.  A failure is the only thing printed, and nothing is analysed.  If
    the file is missing and the generated bookmakers cannot be encoded, the
    file system is untouched and the one line is the writing error, although
    the bookmakers are in memory; likewise if the write itself fails.  If the
    file is there but cannot be read or decoded, the one line is the reading
    error and whatever the decoder had filled in is discarded. *)
Theorem main_failure_prints_one_line {F W E B : Type} `{Float64 F}
    `{Env F W E B} (generated : list (Bookmaker F)) (w : W) :
  (forall err,
     statIsNotExist filename w = true ->
     marshalIndent generated = inr err ->
     main generated w = (w, [ErrorWriting err])) /\
  (forall data w' err,
     statIsNotExist filename w = true ->
     marshalIndent generated = inl data ->
     writeFile filename data w = (w', Some err) ->
     main generated w = (w', [ErrorWriting err])) /\
  (forall err,
     statIsNotExist filename w = false ->
     readFile filename w = inr err ->
     main generated w = (w, [ErrorReading err])) /\
  (forall data partial err,
     statIsNotExist filename w = false ->
     readFile filename w = inl data ->
     unmarshal data = (partial, Some err) ->
     main generated w = (w, [ErrorReading err])).
Proof.
  repeat split.
  - intros err Hst Hm. rewrite main_missing by done.
    unfold writeBookmakersToFile. by rewrite Hm.
  - intros data w' err Hst Hm Hw. rewrite main_missing by done.
    unfold writeBookmakersToFile. by rewrite Hm, Hw.
  - intros err Hst Hr. rewrite main_existing by done.
    unfold readBookmakersFromFile. by rewrite Hr.
  - intros data partial err Hst Hr Hu. rewrite main_existing by done.
    unfold readBookmakersFromFile. by rewrite Hr, Hu.
Qed.

(** X8.  A run that finds no file writes the generated bookmakers and
    prints the blocks of their analysis; if the file system gives back what
    was written and the decoder inverts the encoder on these data, every
    later run changes nothing and prints the same blocks again, read from
    the file, whatever it would generate.  The blocks are the same up to
    their order, which Go does not fix from one run to the next. *)
Theorem main_second_run_reproduces {F W E B : Type} `{Float64 F}
    `{Env F W E B} (generated : list (Bookmaker F)) (w w' : W) (data : B) :
  statIsNotExist filename w = true ->
  marshalIndent generated = inl data ->
  writeFile filename data w = (w', None) ->
  statIsNotExist filename w' = false ->
  readFile filename w' = inl data ->
  unmarshal data = (generated, None) ->
  fst (main generated w) = w' /\
  snd (main generated w) ≡ₚ Found <$> findArbitrageOpportunities generated /\
  forall generated' : list (Bookmaker F),
    fst (main generated' w') = w' /\
    snd (main generated' w') ≡ₚ snd (main generated w).
Proof.
  intros Hst Hm Hw Hst' Hr Hu.
  assert (main generated w
          = (w', Found <$> findArbitrageOpportunities generated)) as ->.
  { rewrite main_missing by done. unfold writeBookmakersToFile.
    by rewrite Hm, Hw. }
  split; [done|]. split; [done|]. intros generated'.
  rewrite main_existing by done. unfold readBookmakersFromFile.
  by rewrite Hr, Hu.
Qed.

Lemma main_second_run_reproduces_witness :
  fst (main arbitrageBookmakers (∅ : gmap string (list (Bookmaker Q))))
  = {[filename := arbitrageBookmakers]} /\
  snd (main arbitrageBookmakers (∅ : gmap string (list (Bookmaker Q))))
  ≡ₚ Found <$> findArbitrageOpportunities arbitrageBookmakers /\
  forall generated' : list (Bookmaker Q),
    fst (main generated' ({[filename := arbitrageBookmakers]}
                           : gmap string (list (Bookmaker Q))))
    = {[filename := arbitrageBookmakers]} /\
    snd (main generated' ({[filename := arbitrageBookmakers]}
                           : gmap string (list (Bookmaker Q))))
    ≡ₚ snd (main arbitrageBookmakers
              (∅ : gmap string (list (Bookmaker Q)))).
Proof.
  apply (main_second_run_reproduces arbitrageBookmakers
           (∅ : gmap string (list (Bookmaker Q)))
           ({[filename := arbitrageBookmakers]}) arbitrageBookmakers);
    reflexivity.
Defined.

Lemma main_failure_prints_one_line_witness :
  main (H0 := ReadOnlyFS.env) arbitrageBookmakers tt = (tt, [ErrorWriting tt]).
Proof.
  apply (proj1 (proj2 (main_failure_prints_one_line (H0 := ReadOnlyFS.env)
                         arbitrageBookmakers tt))
           arbitrageBookmakers tt tt); reflexivity.
Defined.

(** ** [findBestOdds]: quotes already seen, and equal maps *)

Section Absorb.
Context {F : Type} `{Float64 F}.
Local Open Scope f64_scope.
Implicit Types (best : gmap string (Odds F)) (g : Game F)
  (qs : list (Game F)) (id : string).

Lemma mergeOdds_not_greater (stored new : Odds F) :
  (forall o : outcome, (price o new >? price o stored) = false) ->
  mergeOdds stored new = stored.
Proof.
  intros Hle. unfold mergeOdds, larger.
  pose proof (Hle OWin) as Hw. pose proof (Hle ODraw) as Hd.
  pose proof (Hle OLose) as Hl. simpl in Hw, Hd, Hl.
  rewrite Hw, Hd, Hl. by destruct stored.
Qed.

Lemma foldl_keepBest_absorb best qs :
  (forall g, g ∈ qs ->
     exists stored, best !! ID g = Some stored /\
       forall o : outcome,
         (price o (GameOdds g) >? price o stored) = false) ->
  foldl keepBest best qs = best.
Proof.
  induction qs as [|g qs IH]; intros Hall; [done|]. simpl.
  destruct (Hall g (list_elem_of_here _ _)) as (stored & Hl & Hle).
  rewrite (keepBest_present _ _ _ Hl), (mergeOdds_not_greater _ _ Hle).
  rewrite (insert_id _ _ _ Hl). apply IH.
  intros g' Hg'. apply Hall. by apply list_elem_of_further.
Qed.

Lemma Odds_eq (odds odds' : Odds F) :
  (forall o : outcome, price o odds = price o odds') -> odds = odds'.
Proof.
  intros Heq. destruct odds as [w d l], odds' as [w' d' l'].
  pose proof (Heq OWin). pose proof (Heq ODraw). pose proof (Heq OLose).
  simpl in *. by subst.
Qed.

End Absorb.

Section B64Leibniz.
Implicit Types (x y : spec_float).

Lemma b64_eqb_eq x y :
  SFeqb x y = true -> B64.is_zero x = false -> x = y.
Proof.
  unfold SFeqb.
  destruct x as [sx|sx| |sx mx ex], y as [sy|sy| |sy my ey]; simpl;
    try done; try (by destruct sx, sy); try (by destruct sx);
    try (by destruct sy).
  change (Pos.compare_cont Eq mx my) with (Pos.compare mx my).
  intros Hc _.
  destruct sx, sy; try done;
    destruct (Z.compare_spec ex ey); try done;
    destruct (Pos.compare_spec mx my); try done; by subst.
Qed.

End B64Leibniz.

(** X11.  Quotes that have been seen change nothing: appending bookmakers
    all of whose quotes occur in the collection already (the collection
    itself, say, or a copy of one of its bookmakers) leaves the map exactly
    as it is. *)
Theorem findBestOdds_absorbs_seen_quotes
    (bookmakers more : list (Bookmaker spec_float)) :
  (forall g, g ∈ quotes more -> g ∈ quotes bookmakers) ->
  findBestOdds (bookmakers ++ more) = findBestOdds bookmakers.
Proof.
  intros Hseen.
  rewrite (findBestOdds_quotes (bookmakers ++ more)), quotes_app, foldl_app,
    <- findBestOdds_quotes.
  apply foldl_keepBest_absorb. intros g Hg. apply Hseen in Hg.
  assert (is_Some (findBestOdds bookmakers !! ID g)) as [stored Hl].
  { apply elem_of_dom. rewrite findBestOdds_dom, elem_of_list_to_set.
    by apply list_elem_of_fmap_2. }
  exists stored. split; [done|]. intros o.
  destruct (findBestOdds_largest b64_ltb_irrefl b64_ltb_trans
              _ _ _ Hl o) as [_ Hub].
  by apply Hub.
Qed.

Lemma findBestOdds_absorbs_seen_quotes_witness :
  findBestOdds (specBookmakers64 ++ specBookmakers64)
  = findBestOdds specBookmakers64.
Proof.
  apply (findBestOdds_absorbs_seen_quotes specBookmakers64 specBookmakers64).
  intros g Hg. exact Hg.
Defined.

(** X12.  If no quoted price is a NaN or a zero, the whole output depends
    only on which quotes there are: two collections with the same quotes
    give equal maps and the same blocks, up to the order in which the blocks
    are printed, whatever the order of the bookmakers and of their games. *)
Theorem findArbitrageOpportunities_same_quotes
    (bookmakers bookmakers' : list (Bookmaker spec_float)) :
  (forall g, g ∈ quotes bookmakers <-> g ∈ quotes bookmakers') ->
  (forall g (o : outcome), g ∈ quotes bookmakers ->
     B64.is_nan (price o (GameOdds g)) = false /\
     B64.is_zero (price o (GameOdds g)) = false) ->
  findBestOdds bookmakers = findBestOdds bookmakers' /\
  findArbitrageOpportunities bookmakers
  ≡ₚ findArbitrageOpportunities bookmakers'.
Proof.
  intros Hsame Hgood.
  assert (findBestOdds bookmakers = findBestOdds bookmakers') as Heq.
  { apply map_eq. intros id.
    pose proof (findBestOdds_dom_same _ _ Hsame) as Hdom.
    destruct (findBestOdds bookmakers !! id) as [stored|] eqn:Hl,
      (findBestOdds bookmakers' !! id) as [stored'|] eqn:Hl'.
    - f_equal. apply Odds_eq. intros o.
      pose proof (findBestOdds_largest b64_ltb_irrefl b64_ltb_trans
                    _ _ _ Hl o) as Hbest.
      pose proof (findBestOdds_largest b64_ltb_irrefl b64_ltb_trans
                    _ _ _ Hl' o) as Hbest'.
      assert (B64.is_nan (price o stored) = false /\
              B64.is_zero (price o stored) = false) as [Hn Hz].
      { destruct Hbest as [(g & Hg & _ & <-) _]. by apply Hgood. }
      assert (B64.is_nan (price o stored') = false) as Hn'.
      { destruct Hbest' as [(g & Hg & _ & <-) _].
        by apply Hgood, Hsame. }
      apply b64_eqb_eq; [|done]. apply b64_neither_less_eq; try done.
      + eapply largest_quote_incl; [|exact Hbest'|exact Hbest].
        intros g. apply Hsame.
      + eapply largest_quote_incl; [|exact Hbest|exact Hbest'].
        intros g. apply Hsame.
    - apply (elem_of_dom_2 (D := gset string)) in Hl.
      rewrite Hdom in Hl. apply elem_of_dom in Hl as [? Hl].
      by rewrite Hl in Hl'.
    - apply (elem_of_dom_2 (D := gset string)) in Hl'.
      rewrite <- Hdom in Hl'. apply elem_of_dom in Hl' as [? Hl'].
      by rewrite Hl' in Hl.
    - done. }
  split; [done|]. unfold findArbitrageOpportunities. by rewrite Heq.
Qed.

Lemma findArbitrageOpportunities_same_quotes_witness :
  findBestOdds (specBookmakers64 ++ arbitrageBookmakers64)
  = findBestOdds (reverse (specBookmakers64 ++ arbitrageBookmakers64)) /\
  findArbitrageOpportunities (specBookmakers64 ++ arbitrageBookmakers64)
  ≡ₚ findArbitrageOpportunities
       (reverse (specBookmakers64 ++ arbitrageBookmakers64)).
Proof.
  apply (findArbitrageOpportunities_same_quotes
           (specBookmakers64 ++ arbitrageBookmakers64)
           (reverse (specBookmakers64 ++ arbitrageBookmakers64))).
  - apply quotes_Permutation. symmetry. apply reverse_Permutation.
  - intros g o Hg. simpl in Hg.
    repeat (apply elem_of_cons in Hg as [->|Hg]); try (by destruct o).
    by apply elem_of_nil in Hg.
Defined.
